(** * Shallow embedding of od-msspe (src/od-msspe/src/main.rs)

    Segmentation of an alignment into partitions and search windows, k-mer
    extraction, the per-segment count index, the inverted k-mer/segment
    map, the greedy selection loop and the composition filters.

    Modelling conventions:
    - Rust [String]/[&str] are Stdlib [string]s; [chars()] is
      [list_ascii_of_string] (the sequences handled are ASCII).
    - A [HashMap] is an stdpp [gmap]; a [HashSet<usize>] is a [gset nat].
      Where the source iterates a [HashMap] (whose order Rust leaves
      unspecified) the model iterates [map_to_list], one admissible order.
    - A panic is the [Panic] constructor of the [outcome] monad, tagged with
      the reason it is raised. *)

From stdpp Require Import base list gmap sets strings.
From Stdlib Require Import Ascii String NArith.

Open Scope string_scope.

(* ------------------------------------------------------------------ *)
(** ** Panics *)

Inductive panic_reason :=
  | PConfigWindows     (** the explicit [panic!] of [get_segments] *)
  | PIndexOutOfBounds  (** [v[i]] with [i >= v.len()] *)
  | PZeroSize          (** [windows(0)] or [step_by(0)] *)
  | PSliceBounds       (** a string slice out of range *)
  | PSubOverflow       (** [usize] subtraction below zero *)
  | PUnwrapNone.       (** [Option::unwrap] on [None] *)

Inductive outcome (A : Type) :=
  | Ok (a : A)
  | Panic (r : panic_reason).
Arguments Ok {A} a.
Arguments Panic {A} r.

Global Instance outcome_ret : MRet outcome := fun A a => Ok a.
Global Instance outcome_bind : MBind outcome :=
  fun A B f m => match m with Ok a => f a | Panic r => Panic r end.

Definition unwrap {A} (o : option A) : outcome A :=
  match o with Some a => Ok a | None => Panic PUnwrapNone end.

(** [v[i]] on a [Vec]. *)
Definition index_vec {A} (v : list A) (i : nat) : outcome A :=
  match v !! i with Some a => Ok a | None => Panic PIndexOutOfBounds end.

(** [Iterator::fold] whose step may panic. *)
Fixpoint fold_o {A B} (f : B -> A -> outcome B) (l : list A) (b : B) : outcome B :=
  match l with
  | [] => Ok b
  | x :: xs => b' ← f b x; fold_o f xs b'
  end.

(* ------------------------------------------------------------------ *)
(** ** Characters and strings *)

Definition chars (s : string) : list ascii := list_ascii_of_string s.
Definition collect (l : list ascii) : string := string_of_list_ascii l.

(** [reverse_complement]: reverse, then map each character. *)
Definition complement_base (c : ascii) : ascii :=
  if ascii_dec c "A" then "T"
  else if ascii_dec c "T" then "A"
  else if ascii_dec c "U" then "A"
  else if ascii_dec c "C" then "G"
  else if ascii_dec c "G" then "C"
  else c.

Definition reverse_complement (sequence : string) : string :=
  collect (map complement_base (rev (chars sequence))).

(** [Ngram::ngrams(n)] without padding (the sliding windows of length [n],
    stride 1); [<[T]>::windows(n)] for [n > 0] yields the same list. *)
Fixpoint ngrams {A} (n : nat) (l : list A) : list (list A) :=
  match l with
  | [] => []
  | _ :: xs => if Nat.leb n (List.length l) then take n l :: ngrams n xs else []
  end.

(** [Itertools::unique]: keeps the first occurrence of each element. *)
Fixpoint unique_from (seen : list string) (l : list string) : list string :=
  match l with
  | [] => []
  | x :: xs =>
      if bool_decide (x ∈ seen) then unique_from seen xs
      else x :: unique_from (x :: seen) xs
  end.
Definition unique (l : list string) : list string := unique_from [] l.

Definition excluded_chars : list ascii := chars "Nn- ".

Definition find_kmers (sequence : string) (kmer_size : nat) : list string :=
  unique
    (map collect
       (filter (fun kmer => forallb (fun c => negb (bool_decide (c ∈ excluded_chars))) kmer)
          (ngrams kmer_size (chars sequence)))).

(** [Iterator::step_by(step)]: the first element, then every [step]-th. *)
Fixpoint step_by_from {A} (step cnt : nat) (l : list A) : list A :=
  match l with
  | [] => []
  | x :: xs =>
      match cnt with
      | 0 => x :: step_by_from step (step - 1) xs
      | S c => step_by_from step c xs
      end
  end.
Definition step_by {A} (step : nat) (l : list A) : list A := step_by_from step 0 l.

(** [windows(2 * w)] panics when its argument is 0, and so does
    [step_by(w)]; both happen exactly when [w = 0]. *)
Definition partitioning_sequence (sequence : string) (ovlp_windows_size : nat)
  : outcome (list string) :=
  if bool_decide (ovlp_windows_size * 2 = 0) then Panic PZeroSize
  else Ok (map collect
             (step_by ovlp_windows_size
                (ngrams (ovlp_windows_size * 2) (chars sequence)))).

Definition get_sequence_on_search_windows (sequence : string) (search_windows_size : nat)
  : outcome (string * string) :=
  if bool_decide (String.length sequence < search_windows_size) then Panic PSliceBounds
  else Ok (substring 0 search_windows_size sequence,
           substring (String.length sequence - search_windows_size) search_windows_size sequence).

(* ------------------------------------------------------------------ *)
(** ** Composition checks *)

(** [is_repeats]: compares each 2-gram with the previous one; the counter
    is reset on every difference and read once, after the loop. *)
Definition is_repeats (kmer : string) : bool :=
  let '(repeats, _) :=
    fold_left
      (fun '(repeats, last_chunk) (chunk : list ascii) =>
         (if bool_decide (chunk = last_chunk) then repeats + 1 else 0, chunk))
      (ngrams 2 (chars kmer)) (0, []) in
  Nat.leb 5 repeats.

Definition is_run (kmer : string) : bool :=
  let '(runs, _) :=
    fold_left
      (fun '(runs, last_char) (c : ascii) =>
         (if ascii_dec c last_char then runs + 1 else 0, c))
      (chars kmer) (0, " "%char) in
  Nat.leb 5 runs.

(* ------------------------------------------------------------------ *)
(** ** Records, k-mers and segments *)

Record SequenceRecord := { name : string; sequence : string }.

Definition SEQ_DIR_FWD : nat := 0.
Definition SEQ_DIR_REV : nat := 1.

(** [KmerRecord]: its [Eq] and [Hash] use both fields (identity equality). *)
Record KmerRecord := { word : string; direction : nat }.

Global Instance KmerRecord_eq_dec : EqDecision KmerRecord.
Proof. solve_decision. Defined.

Global Instance KmerRecord_countable : Countable KmerRecord.
Proof.
  apply (inj_countable' (fun k => (word k, direction k))
                        (fun p => {| word := p.1; direction := p.2 |})).
  by intros [].
Defined.

(** [idx as u16]: wraps modulo 2^16. *)
Definition as_u16 (n : nat) : nat := N.to_nat (N.modulo (N.of_nat n) 65536).

Record Segment := { index : nat; kmers : gmap KmerRecord nat }.

(** [entry(k).and_modify(|e| *e += 1).or_insert(1)] *)
Definition incr (k : KmerRecord) (m : gmap KmerRecord nat) : gmap KmerRecord nat :=
  <[k := match m !! k with Some e => e + 1 | None => 1 end]> m.

Definition to_records_dir (d : nat) (ws : list string) : list KmerRecord :=
  map (fun w => {| word := w; direction := d |}) ws.

Section Segments.

(** Whether [log::debug!] is enabled: its arguments, among them
    [partitions[0]], are only evaluated when it is. *)
Variable log_debug_enabled : bool.

(** Body of the inner loop of [get_segments], for partition [idx]. *)
Definition add_partition (kmer_size search_windows_size : nat)
    (segments : gmap nat Segment) (idx : nat) (partition : string)
    : outcome (gmap nat Segment) :=
  let segment := default {| index := as_u16 idx; kmers := ∅ |} (segments !! idx) in
  '(fwd_windows, rev_windows) ← get_sequence_on_search_windows partition search_windows_size;
  let fwd_kmers := to_records_dir SEQ_DIR_FWD (find_kmers fwd_windows kmer_size) in
  let rev_kmers := to_records_dir SEQ_DIR_REV
                     (find_kmers (reverse_complement rev_windows) kmer_size) in
  let kmers' := foldl (fun m k => incr k m) (kmers segment) (fwd_kmers ++ rev_kmers) in
  Ok (<[idx := {| index := index segment; kmers := kmers' |}]> segments).

Fixpoint add_partitions (kmer_size search_windows_size : nat)
    (idx : nat) (partitions : list string) (segments : gmap nat Segment)
    : outcome (gmap nat Segment) :=
  match partitions with
  | [] => Ok segments
  | p :: ps =>
      segments' ← add_partition kmer_size search_windows_size segments idx p;
      add_partitions kmer_size search_windows_size (S idx) ps segments'
  end.

(** Body of the outer loop of [get_segments], for one record. *)
Definition add_record (ovlp_windows_size kmer_size search_windows_size : nat)
    (segments : gmap nat Segment) (rec : SequenceRecord)
    : outcome (gmap nat Segment) :=
  partitions ← partitioning_sequence (sequence rec) ovlp_windows_size;
  _ ← (if log_debug_enabled then index_vec partitions 0 else Ok "");
  add_partitions kmer_size search_windows_size 0 partitions segments.

Definition get_segments (records : list SequenceRecord)
    (ovlp_windows_size kmer_size search_windows_size : nat)
    : outcome (gmap nat Segment) :=
  if bool_decide (ovlp_windows_size < search_windows_size) then Panic PConfigWindows
  else fold_o (add_record ovlp_windows_size kmer_size search_windows_size) records ∅.

End Segments.

Definition fixture_records : list SequenceRecord :=
  [ {| name := "seq1"; sequence := "AACCTTGGAACCTTGG" |};
    {| name := "seq2"; sequence := "AACCTTGGAACCTTG-" |};
    {| name := "seq3"; sequence := "-ACCTTGGAACCTT-G" |} ].

Definition seg_count (segs : outcome (gmap nat Segment)) (i : nat) (k : KmerRecord)
  : option nat :=
  match segs with
  | Ok m => seg ← m !! i; kmers seg !! k
  | Panic _ => None
  end.

Definition seg_size (segs : outcome (gmap nat Segment)) (i : nat) : option nat :=
  match segs with
  | Ok m => seg ← m !! i; Some (size (kmers seg))
  | Panic _ => None
  end.

(* ------------------------------------------------------------------ *)
(** ** Inverted map and one greedy round *)

(** [KmerSegmentMapping]: word -> (segment key -> frequency).  The
    [*freq as u32] cast is not modelled: only the keys are ever read. *)
Definition make_kmer_segments_mapping (segments : gmap nat Segment)
  : gmap string (gmap nat nat) :=
  foldl
    (fun mapping '(i, segment) =>
       foldl
         (fun mapping '(kmer, freq) =>
            <[word kmer := <[i := freq]> (default ∅ (mapping !! word kmer))]> mapping)
         mapping (map_to_list (kmers segment)))
    ∅ (map_to_list segments).

Record KmerFrequency := { kmer : KmerRecord; frequency : nat }.

(** [Iterator::max_by]: of several equal maxima the last one is returned;
    the comparison may panic (it unwraps map lookups). *)
Fixpoint max_by_from {A} (cmp : A -> A -> outcome comparison) (acc : A) (l : list A)
  : outcome A :=
  match l with
  | [] => Ok acc
  | y :: ys =>
      c ← cmp acc y;
      max_by_from cmp (match c with Gt => acc | _ => y end) ys
  end.

Definition max_by {A} (cmp : A -> A -> outcome comparison) (l : list A)
  : outcome (option A) :=
  match l with
  | [] => Ok None
  | x :: xs => m ← max_by_from cmp x xs; Ok (Some m)
  end.

(** The per-segment body of [find_most_freq_kmer]: the state is
    ([kmer_total_counts], [candidate_kmers]). *)
Definition scan_segment (skipped_segment_indexes : gset nat)
    (st : gmap KmerRecord nat * gmap nat KmerFrequency) (segment : Segment)
    : outcome (gmap KmerRecord nat * gmap nat KmerFrequency) :=
  let '(kmer_total_counts, candidate_kmers) := st in
  if bool_decide (index segment ∈ skipped_segment_indexes) then Ok st
  else
    let '(kmer_map, kmer_counts, kmer_total_counts') :=
      foldl
        (fun '(kmer_map, kmer_counts, totals) '(kmer_record, counts) =>
           (match kmer_map !! word kmer_record with
            | Some _ => kmer_map
            | None => <[word kmer_record := kmer_record]> kmer_map
            end,
            <[word kmer_record := default 0 (kmer_counts !! word kmer_record) + counts]>
              kmer_counts,
            <[kmer_record := default 0 (totals !! kmer_record) + counts]> totals))
        ((∅ : gmap string KmerRecord), (∅ : gmap string nat), kmer_total_counts)
        (map_to_list (kmers segment)) in
    best ← max_by (fun a b => Ok (Nat.compare a.2 b.2)) (map_to_list kmer_counts);
    '(w, freq) ← unwrap best;
    winner_kmer ← unwrap (kmer_map !! w);
    Ok (kmer_total_counts',
        <[index segment := {| kmer := {| word := w; direction := direction winner_kmer |};
                              frequency := freq |}]> candidate_kmers).

Definition find_most_freq_kmer (segments : gmap nat Segment)
    (kmer_segments_mapping : gmap string (gmap nat nat))
    (skipped_segment_indexes : gset nat)
    : outcome (option (KmerFrequency * gset nat)) :=
  '(kmer_total_counts, candidate_kmers) ←
    fold_o (scan_segment skipped_segment_indexes) (map_to_list segments).*2 (∅, ∅);
  if bool_decide (size candidate_kmers = 0) then Ok None
  else
    best ← max_by
             (fun a b =>
                a_freq ← unwrap (kmer_total_counts !! kmer a.2);
                b_freq ← unwrap (kmer_total_counts !! kmer b.2);
                Ok (Nat.compare a_freq b_freq))
             (map_to_list candidate_kmers);
    '(_, winner) ← unwrap best;
    winner_kmer_segments ← unwrap (kmer_segments_mapping !! word (kmer winner));
    let skipped : gset nat := dom winner_kmer_segments in
    let skipped :=
      match kmer_segments_mapping !! reverse_complement (word (kmer winner)) with
      | Some rev_segments => skipped ∪ dom rev_segments
      | None => skipped
      end in
    Ok (Some (winner, skipped)).

(* ------------------------------------------------------------------ *)
(** ** The greedy loop of [get_candidates_kmers] *)

Definition MAX_ITERATIONS : nat := 100.
Definition MAX_MISMATCH_SEGMENTS : nat := 0.

(** [a - b] on [usize] (overflow-checked). *)
Definition usize_sub (a b : nat) : outcome nat :=
  if bool_decide (a < b) then Panic PSubOverflow else Ok (a - b).

Section Greedy.

(** One round's search ([find_most_freq_kmer] on fixed segments and
    mapping), the number of segments, and the mismatch tolerance (the
    constant [MAX_MISMATCH_SEGMENTS] in the source). *)
Variable find : gset nat -> outcome (option (KmerFrequency * gset nat)).
Variable total_segments max_mismatch : nat.

Fixpoint greedy_rounds (fuel : nat) (skipped_segment_indexes : gset nat)
    (candidate_kmers : list KmerFrequency) : outcome (list KmerFrequency) :=
  match fuel with
  | 0 => Ok candidate_kmers
  | S fuel' =>
      result ← find skipped_segment_indexes;
      match result with
      | None => Ok candidate_kmers
      | Some (iter_winner, new_skipped_indexes) =>
          let skipped' := skipped_segment_indexes ∪ new_skipped_indexes in
          remaining_segments ← usize_sub total_segments (size skipped');
          if bool_decide (remaining_segments < max_mismatch) then Ok candidate_kmers
          else greedy_rounds fuel' skipped' (candidate_kmers ++ [iter_winner])
      end
  end.

(** The loop in the order the spec gives: each round records its winner
    as accepted first, and only then tests the stop condition. *)
Fixpoint greedy_rounds_record_first (fuel : nat) (skipped_segment_indexes : gset nat)
    (candidate_kmers : list KmerFrequency) : outcome (list KmerFrequency) :=
  match fuel with
  | 0 => Ok candidate_kmers
  | S fuel' =>
      result ← find skipped_segment_indexes;
      match result with
      | None => Ok candidate_kmers
      | Some (iter_winner, new_skipped_indexes) =>
          let skipped' := skipped_segment_indexes ∪ new_skipped_indexes in
          let accepted := (candidate_kmers ++ [iter_winner])%list in
          remaining_segments ← usize_sub total_segments (size skipped');
          if bool_decide (remaining_segments < max_mismatch) then Ok accepted
          else greedy_rounds_record_first fuel' skipped' accepted
      end
  end.

End Greedy.

Definition get_candidates_kmers_tol (max_mismatch : nat) (segments : gmap nat Segment)
  : outcome (list KmerFrequency) :=
  let kmer_segment_mappings := make_kmer_segments_mapping segments in
  greedy_rounds (find_most_freq_kmer segments kmer_segment_mappings)
    (size segments) max_mismatch MAX_ITERATIONS ∅ [].

Definition get_candidates_kmers (segments : gmap nat Segment) : outcome (list KmerFrequency) :=
  get_candidates_kmers_tol MAX_MISMATCH_SEGMENTS segments.

(** The fixture of [test_find_most_freq_kmer]. *)
Definition fwd (w : string) : KmerRecord := {| word := w; direction := SEQ_DIR_FWD |}.

Definition mk_segment (i : nat) (ks : list (KmerRecord * nat)) : Segment :=
  {| index := i; kmers := list_to_map ks |}.

Definition fixture_segments : gmap nat Segment :=
  list_to_map
    [ (0, mk_segment 0 [(fwd "ACTG", 1); (fwd "AGGT", 1); (fwd "ATTA", 2)]);
      (1, mk_segment 1 [(fwd "GCAT", 1); (fwd "AGGT", 2); (fwd "GGAA", 1)]);
      (2, mk_segment 2 [(fwd "GGGG", 1); (fwd "ATGA", 2); (fwd "TTTT", 1)]) ].

Definition round_summary (r : outcome (option (KmerFrequency * gset nat)))
  : option (string * nat * nat) :=
  match r with
  | Ok (Some (w, s)) => Some (word (kmer w), frequency w, size s)
  | _ => None
  end.

(* ------------------------------------------------------------------ *)
(** ** [f32] values used by the filter *)

From Stdlib Require Import ZArith QArith.
Open Scope nat_scope.

(** An [f32] is a finite value (an exact rational) or NaN. *)
Inductive f32 := F32 (q : Q) | F32NaN.

(** Round-to-nearest-even of the positive rational [a / b] to 24
    significant bits (binary32 in its normal range). *)
Definition f32_round_pos (a b : Z) : Q :=
  let num (e : Z) := if (0 <=? e)%Z then a else (a * 2 ^ (- e))%Z in
  let den (e : Z) := if (0 <=? e)%Z then (b * 2 ^ e)%Z else b in
  let e0 := (Z.log2 a - Z.log2 b - 24)%Z in
  let e := if (2 ^ 24 <=? num e0 / den e0)%Z then (e0 + 1)%Z else e0 in
  let m := (num e / den e)%Z in
  let r := (num e mod den e)%Z in
  let m' := if (den e <? 2 * r)%Z || ((2 * r =? den e)%Z && Z.odd m) then (m + 1)%Z else m in
  if (0 <=? e)%Z then inject_Z (m' * 2 ^ e) else Qmake m' (Z.to_pos (2 ^ (- e))).

Definition f32_of_Q (q : Q) : Q :=
  if (Qnum q <=? 0)%Z then 0%Q else Qred (f32_round_pos (Qnum q) (Zpos (Qden q))).

(** [(gc_count / kmer.len() as f32) * 100.0]; the count and the length
    are small integers, exact in [f32]; [0.0 / 0.0] is NaN. *)
Definition gc_count (kmer : string) : nat :=
  List.length (filter (fun c => bool_decide (c = "G"%char \/ c = "C"%char)) (chars kmer)).

Definition get_gc_percent (kmer : string) : f32 :=
  match String.length kmer with
  | 0 => F32NaN
  | n => F32 (f32_of_Q (f32_of_Q (Z.of_nat (gc_count kmer) # Pos.of_nat n) * 100))
  end.

(** [>=] and [<=] on [f32]: false when NaN is involved. *)
Definition f32_ge (x : f32) (c : Q) : bool :=
  match x with F32 q => Qle_bool c q | F32NaN => false end.
Definition f32_le (x : f32) (c : Q) : bool :=
  match x with F32 q => Qle_bool q c | F32NaN => false end.

(* ------------------------------------------------------------------ *)
(** ** Statistics and the final filter *)

Module Stat.
(** [KmerStat] without its [tm] and [delta_g] numbers, which the filter
    does not read ([tm] enters only through [tm_ok]). *)
Record KmerStat := {
  word : string;
  direction : nat;
  frequency : nat;
  gc_percent : f32;
  tm_ok : bool;
  repeats : bool;
  runs : bool;
  hairpin : bool
}.
End Stat.

Section Stats.

(** [in_tm_threshold(word, tm_threshold)] with the threshold of the whole
    candidate list: an [f32] comparison of [get_tm] against
    mean + 2 sd, the standard deviation coming from the [std_dev] crate. *)
Variable in_tm_threshold : string -> bool.

Definition kmer_stat (kmer_freq : KmerFrequency) : Stat.KmerStat :=
  let w := word (kmer kmer_freq) in
  let delta_g := 0%Q in
  {| Stat.word := w;
     Stat.direction := direction (kmer kmer_freq);
     Stat.frequency := frequency kmer_freq;
     Stat.gc_percent := get_gc_percent w;
     Stat.tm_ok := in_tm_threshold w;
     Stat.repeats := is_repeats w;
     Stat.runs := is_run w;
     Stat.hairpin := negb (Qle_bool (-9) delta_g) |}.

Definition get_kmer_stats (kmer_records : list KmerFrequency) : list Stat.KmerStat :=
  map kmer_stat kmer_records.

End Stats.

(** The closure given to [filter] in [main]. *)
Definition primer_filter (kmer_stat : Stat.KmerStat) : bool :=
  Stat.tm_ok kmer_stat
  && negb (Stat.repeats kmer_stat)
  && negb (Stat.runs kmer_stat)
  && f32_ge (Stat.gc_percent kmer_stat) 40
  && f32_le (Stat.gc_percent kmer_stat) 60.

Definition candidate_primers (kmer_stats : list Stat.KmerStat) : list Stat.KmerStat :=
  filter primer_filter kmer_stats.

(* ------------------------------------------------------------------ *)
(** ** Readings of the specification, compared with the code *)

(** Spec reading of the dinucleotide-repeat flag: some motif of length 2
    occurs 5 times back to back at some position. *)
Definition spec_has_dinucleotide_repeat (s : string) : bool :=
  existsb
    (fun i =>
       let m := substring i 2 s in
       bool_decide (String.length m = 2) &&
       bool_decide (substring i 10 s = m ++ m ++ m ++ m ++ m))
    (seq 0 (String.length s)).

(** Spec reading of the homopolymer-run flag: some character occurs 5
    times back to back at some position. *)
Definition spec_has_homopolymer_run (s : string) : bool :=
  existsb
    (fun i =>
       let c := substring i 1 s in
       bool_decide (String.length c = 1) &&
       bool_decide (substring i 5 s = c ++ c ++ c ++ c ++ c))
    (seq 0 (String.length s)).

Definition nucleotides : list ascii := ["A"; "T"; "C"; "G"]%char.

(** The k-mers of a window before deduplication. *)
Definition raw_kmers (sequence : string) (kmer_size : nat) : list string :=
  map collect
    (filter (fun kmer => forallb (fun c => negb (bool_decide (c ∈ excluded_chars))) kmer)
       (ngrams kmer_size (chars sequence))).

(** The words a partition exhibits on strand [d]: the k-mers of its
    forward search window, or of the reverse complement of its reverse
    search window. *)
Definition window_words (partition : string) (kmer_size search_windows_size d : nat)
  : list string :=
  match get_sequence_on_search_windows partition search_windows_size with
  | Ok (fwd_windows, rev_windows) =>
      if Nat.eqb d SEQ_DIR_FWD then raw_kmers fwd_windows kmer_size
      else if Nat.eqb d SEQ_DIR_REV then raw_kmers (reverse_complement rev_windows) kmer_size
      else []
  | Panic _ => []
  end.

(** Whether record [rec] exhibits [k] (word and strand) at partition [idx]. *)
Definition exhibits (ovlp_windows_size kmer_size search_windows_size idx : nat)
    (k : KmerRecord) (rec : SequenceRecord) : bool :=
  match partitioning_sequence (sequence rec) ovlp_windows_size with
  | Ok partitions =>
      match partitions !! idx with
      | Some p => bool_decide (word k ∈ window_words p kmer_size search_windows_size (direction k))
      | None => false
      end
  | Panic _ => false
  end.

(** Count stored for [k] in segment [i] (0 when absent). *)
Definition cnt (m : gmap KmerRecord nat) (k : KmerRecord) : nat := default 0 (m !! k).

Definition cnt_at (segments : gmap nat Segment) (i : nat) (k : KmerRecord) : nat :=
  match segments !! i with Some seg => cnt (kmers seg) k | None => 0 end.

(** Inputs used by the concrete runs below. *)
Definition with_hairpin (st : Stat.KmerStat) (b : bool) : Stat.KmerStat :=
  {| Stat.word := Stat.word st; Stat.direction := Stat.direction st;
     Stat.frequency := Stat.frequency st; Stat.gc_percent := Stat.gc_percent st;
     Stat.tm_ok := Stat.tm_ok st; Stat.repeats := Stat.repeats st;
     Stat.runs := Stat.runs st; Stat.hairpin := b |}.

(** A partition made only of gaps: [get_segments] builds its segment with an
    empty count map. *)
Definition gap_record : SequenceRecord := {| name := "gaps"; sequence := "----------" |}.

Definition gap_segments : gmap nat Segment :=
  match get_segments false [gap_record] 5 3 5 with Ok m => m | Panic _ => ∅ end.

Definition fixture_segments_built : gmap nat Segment :=
  match get_segments true fixture_records 5 3 5 with Ok m => m | Panic _ => ∅ end.

Definition fixture_segment0 : Segment :=
  default {| index := 0; kmers := ∅ |} (fixture_segments_built !! 0).

(* ------------------------------------------------------------------ *)
(** ** Sequence normalisation of [to_records] *)

(** [char::to_uppercase] on an ASCII character ([str::to_uppercase] maps
    each ASCII character this way and keeps the length). *)
Definition char_to_uppercase (c : ascii) : ascii :=
  let n := nat_of_ascii c in
  if (97 <=? n) && (n <=? 122) then ascii_of_nat (n - 32) else c.

(** The sequence of a record in [to_records]:
    [String::from_utf8(..).unwrap().to_uppercase().replace("U", "T")]. *)
Definition to_records_sequence (sequence : string) : string :=
  collect (map (fun c => if ascii_dec c "U" then "T"%char else c)
             (map char_to_uppercase (chars sequence))).

(** One character of [to_records_sequence]. *)
Definition normalize_char (c : ascii) : ascii :=
  if ascii_dec (char_to_uppercase c) "U" then "T"%char else char_to_uppercase c.

Definition is_lower (c : ascii) : bool := (97 <=? nat_of_ascii c) && (nat_of_ascii c <=? 122).

(** The letters of DNA and RNA sequences, in either case. *)
Definition rna_dna_letters : list ascii :=
  ["A"; "C"; "G"; "T"; "U"; "a"; "c"; "g"; "t"; "u"]%char.

(* ------------------------------------------------------------------ *)
(** ** Invariants of the segment index and the inverted map *)

(** Every segment carries its key (as [u16]) as its index. *)
Definition index_inv (segs : gmap nat Segment) : Prop :=
  forall i seg, segs !! i = Some seg -> index seg = as_u16 i.

(** Every stored k-mer has the k-mer size, a direction, no excluded
    character and a positive count. *)
Definition kmers_inv (kmer_size : nat) (segs : gmap nat Segment) : Prop :=
  forall i seg k n, segs !! i = Some seg -> kmers seg !! k = Some n ->
    String.length (word k) = kmer_size /\
    (direction k = SEQ_DIR_FWD \/ direction k = SEQ_DIR_REV) /\
    Forall (fun c => c ∉ excluded_chars) (chars (word k)) /\
    1 <= n.

(** Lookup in the inverted map, word then segment key. *)
Definition look (mapping : gmap string (gmap nat nat)) (w : string) (i : nat) : option nat :=
  mapping !! w ≫= lookup i.

(** The sum of all counts stored in the segments; it bounds every sum that
    [find_most_freq_kmer] forms with [usize] additions. *)
Definition kmer_count_sum (segments : gmap nat Segment) : nat :=
  sum_list (map (fun segment => sum_list (map_to_list (kmers segment)).*2)
                (map_to_list segments).*2).

Definition nonempty_inner (mapping : gmap string (gmap nat nat)) : Prop :=
  forall w m, mapping !! w = Some m -> m <> ∅.

(* ================================================================== *)
(** * Theorems *)

(** ** Runs on the fixtures of the source's tests *)

Example find_kmers_test :
  find_kmers "AACCTTGGAACCTTG-" 5
  = ["AACCT"; "ACCTT"; "CCTTG"; "CTTGG"; "TTGGA"; "TGGAA"; "GGAAC"; "GAACC"].
Proof. reflexivity. Qed.

Example search_windows_test :
  get_sequence_on_search_windows "AACCTTGGAACCTTG-" 5 = Ok ("AACCT", "CTTG-").
Proof. reflexivity. Qed.

Example partitioning_test :
  partitioning_sequence "AACCTTGGAACCTTGG" 5 = Ok ["AACCTTGGAA"; "TGGAACCTTG"].
Proof. reflexivity. Qed.

Example rc_test : reverse_complement "ATCGAA" = "TTCGAT".
Proof. reflexivity. Qed.

Example is_run_test : is_run "AAAAAA" = true /\ is_run "AAAAA" = false.
Proof. split; reflexivity. Qed.

(** The fixture of [test_get_segments]. *)
Example get_segments_test :
  let segs := get_segments true fixture_records 5 3 5 in
  (match segs with Ok m => size m | Panic _ => 0 end) = 2 /\
  seg_size segs 0 = Some 6 /\ seg_size segs 1 = Some 6 /\
  seg_count segs 0 {| word := "AAC"; direction := 0 |} = Some 2 /\
  seg_count segs 0 {| word := "TTC"; direction := 1 |} = Some 3.
Proof. vm_compute. repeat split. Qed.

Example find_most_freq_kmer_test :
  let m := make_kmer_segments_mapping fixture_segments in
  round_summary (find_most_freq_kmer fixture_segments m ∅) = Some ("AGGT", 2, 2) /\
  round_summary (find_most_freq_kmer fixture_segments m {[0; 1]}) = Some ("ATGA", 2, 1).
Proof. vm_compute. split; reflexivity. Qed.

Example gc_percent_values :
  get_gc_percent "GGAAA" = F32 40 /\
  get_gc_percent "GGGAA" = F32 (15728641 # 262144) /\
  get_gc_percent "GGGGGGAAAAAAA" = F32 (6049477 # 131072).
Proof. repeat split; vm_compute; reflexivity. Qed.

(** ** Composition flags *)

(** C2 (code_bug): [is_repeats] is false on the example of its own doc
    comment, "ATATATATATGG" ("too many AT repeats, then return true"),
    although the motif "AT" occurs 5 times back to back there. *)
Theorem is_repeats_misses_AT_repeat :
  is_repeats "ATATATATATGG" = false /\
  spec_has_dinucleotide_repeat "ATATATATATGG" = true.
Proof. split; vm_compute; reflexivity. Qed.

(** C3 (code_bug): [is_run] misses a run of 7 identical characters that
    is not at the end of the word, and a run of exactly 5 characters. *)
Theorem is_run_misses_inner_run :
  is_run "AAAAAAAC" = false /\ spec_has_homopolymer_run "AAAAAAAC" = true /\
  is_run "AAAAA" = false /\ spec_has_homopolymer_run "AAAAA" = true.
Proof. repeat split; vm_compute; reflexivity. Qed.

(** ** Reverse complement *)

Lemma chars_collect (l : list ascii) : chars (collect l) = l.
Proof. apply list_ascii_of_string_of_list_ascii. Qed.

Lemma collect_chars (s : string) : collect (chars s) = s.
Proof. apply string_of_list_ascii_of_string. Qed.

Lemma complement_involutive (c : ascii) :
  bool_decide (c ∈ nucleotides) = true -> complement_base (complement_base c) = c.
Proof.
  rewrite bool_decide_eq_true. unfold nucleotides.
  rewrite !elem_of_cons, elem_of_nil.
  intros [->|[->|[->|[->|[]]]]]; reflexivity.
Qed.

Lemma complement_other (c : ascii) :
  c ∉ ("U"%char :: nucleotides) -> complement_base c = c.
Proof.
  unfold nucleotides. rewrite !elem_of_cons, elem_of_nil. intros Hc.
  unfold complement_base.
  repeat (destruct ascii_dec; [subst; tauto|]). reflexivity.
Qed.

Lemma chars_reverse_complement (s : string) :
  chars (reverse_complement s) = map complement_base (rev (chars s)).
Proof. unfold reverse_complement. apply chars_collect. Qed.

(** C6, counterexample: "U" lies outside {A,T,C,G} and is not passed
    through: the source maps it to "A". *)
Lemma reverse_complement_U :
  ("U"%char ∉ nucleotides) /\ reverse_complement "U" = "A".
Proof.
  split; [|reflexivity].
  unfold nucleotides. rewrite !elem_of_cons, elem_of_nil.
  intros [H|[H|[H|[H|[]]]]]; discriminate H.
Qed.

(** C6 (amended): [reverse_complement] is an involution on sequences over
    {A,T,C,G}; it reverses its input and maps A<->T, C<->G and U to A,
    every other character being passed through unchanged; and
    reverse_complement("ATCGAA") = "TTCGAT". *)
Theorem reverse_complement_spec :
  (forall s : string,
     forallb (fun c => bool_decide (c ∈ nucleotides)) (chars s) = true ->
     reverse_complement (reverse_complement s) = s) /\
  (forall (s : string) (l1 l2 : list ascii) (c : ascii),
     chars s = (l1 ++ c :: l2)%list -> c ∉ ("U"%char :: nucleotides) ->
     chars (reverse_complement s) = (map complement_base (rev l2) ++ c :: map complement_base (rev l1))%list) /\
  (forall (s : string) (l1 l2 : list ascii),
     chars s = (l1 ++ "U"%char :: l2)%list ->
     chars (reverse_complement s) = (map complement_base (rev l2) ++ "A"%char :: map complement_base (rev l1))%list) /\
  reverse_complement "ATCGAA" = "TTCGAT".
Proof.
  split; [|split; [|split]].
  - intros s Hs. unfold reverse_complement at 1.
    rewrite chars_reverse_complement, <- map_rev, rev_involutive, map_map.
    rewrite <- (collect_chars s) at 2. f_equal.
    rewrite <- (map_id (chars s)) at 2. apply map_ext_in.
    intros c Hc. rewrite List.forallb_forall in Hs.
    apply complement_involutive, Hs, Hc.
  - intros s l1 l2 c Hs Hc.
    rewrite chars_reverse_complement, Hs, rev_app_distr, map_app. simpl.
    rewrite map_app. simpl. rewrite (complement_other c Hc).
    rewrite <- app_assoc. reflexivity.
  - intros s l1 l2 Hs.
    rewrite chars_reverse_complement, Hs, rev_app_distr, map_app. simpl.
    rewrite map_app. simpl. rewrite <- app_assoc. reflexivity.
  - reflexivity.
Qed.

Ltac not_in_list :=
  rewrite ?elem_of_cons, ?elem_of_nil; intros ?; intuition discriminate.

Lemma reverse_complement_spec_witness :
  reverse_complement (reverse_complement "ATCGAA") = "ATCGAA" /\
  chars (reverse_complement "A-G")
    = (map complement_base (rev ["G"%char]) ++ "-"%char :: map complement_base (rev ["A"%char]))%list.
Proof.
  split.
  - apply (proj1 reverse_complement_spec). reflexivity.
  - apply (proj1 (proj2 reverse_complement_spec) "A-G" ["A"%char] ["G"%char] "-"%char).
    + reflexivity.
    + unfold nucleotides. not_in_list.
Defined.

(** ** The outcome monad *)

Lemma bind_Ok {A B} (a : A) (f : A -> outcome B) : (Ok a ≫= f) = f a.
Proof. reflexivity. Qed.

Lemma bind_Panic {A B} (r : panic_reason) (f : A -> outcome B) : (Panic r ≫= f) = Panic r.
Proof. reflexivity. Qed.

Lemma bind_Ok_inv {A B} (m : outcome A) (f : A -> outcome B) (b : B) :
  (m ≫= f) = Ok b -> exists a, m = Ok a /\ f a = Ok b.
Proof. destruct m as [a|r]; simpl; [eauto|discriminate]. Qed.

(** [m ≫= f] raises reason [r] only if [m] or some [f a] does. *)
Lemma bind_not_panic {A B} (r : panic_reason) (m : outcome A) (f : A -> outcome B) :
  m <> Panic r -> (forall a, m = Ok a -> f a <> Panic r) -> (m ≫= f) <> Panic r.
Proof.
  intros Hm Hf. destruct m as [a|r'].
  - rewrite bind_Ok. by apply Hf.
  - rewrite bind_Panic. intros [= ->]. by apply Hm.
Qed.

Lemma fold_o_not_panic {A B} (r : panic_reason) (f : B -> A -> outcome B) :
  (forall b x, f b x <> Panic r) -> forall l b, fold_o f l b <> Panic r.
Proof.
  intros Hf l. induction l as [|x xs IH]; intros b; simpl; [discriminate|].
  apply bind_not_panic; auto.
Qed.

(** If every step that panics raises [r], and the step on some element of
    the list always panics, the fold raises [r]. *)
Lemma fold_o_panics {A B} (r : panic_reason) (f : B -> A -> outcome B) (x : A) :
  (forall b y r', f b y = Panic r' -> r' = r) ->
  (forall b, f b x = Panic r) ->
  forall l b, x ∈ l -> fold_o f l b = Panic r.
Proof.
  intros Honly Hx l. induction l as [|y ys IH]; intros b Hin; simpl.
  - by apply elem_of_nil in Hin.
  - apply elem_of_cons in Hin as [->|Hin].
    + by rewrite Hx.
    + destruct (f b y) as [b'|r'] eqn:E; simpl.
      * by apply IH.
      * by rewrite (Honly _ _ _ E).
Qed.

(** ** Configuration error of [get_segments] *)

Lemma add_partition_not_config k s segs idx p :
  add_partition k s segs idx p <> Panic PConfigWindows.
Proof.
  unfold add_partition, get_sequence_on_search_windows.
  case_bool_decide; [rewrite bind_Panic|rewrite bind_Ok]; discriminate.
Qed.

Lemma add_partitions_not_config k s idx ps segs :
  add_partitions k s idx ps segs <> Panic PConfigWindows.
Proof.
  revert idx segs. induction ps as [|p ps IH]; intros idx segs; simpl; [discriminate|].
  apply bind_not_panic; [apply add_partition_not_config|auto].
Qed.

Lemma add_record_not_config dbg w k s segs r :
  add_record dbg w k s segs r <> Panic PConfigWindows.
Proof.
  unfold add_record, partitioning_sequence.
  case_bool_decide; simpl; [discriminate|].
  apply bind_not_panic.
  - destruct dbg; simpl; [|discriminate].
    unfold index_vec. destruct (_ !! 0); simpl; discriminate.
  - intros. apply add_partitions_not_config.
Qed.

(** C9: [get_segments] raises its configuration panic exactly when the
    partition width is smaller than the search-window width; it does so
    for every list of records, before any record is looked at. *)
Theorem get_segments_config_panic (log_debug_enabled : bool) (records : list SequenceRecord)
    (ovlp_windows_size kmer_size search_windows_size : nat) :
  get_segments log_debug_enabled records ovlp_windows_size kmer_size search_windows_size
    = Panic PConfigWindows
  <-> ovlp_windows_size < search_windows_size.
Proof.
  unfold get_segments. case_bool_decide as Hlt.
  - tauto.
  - split; [|tauto]. intros H. exfalso. revert H.
    apply fold_o_not_panic. intros. apply add_record_not_config.
Qed.

(** ** Panic of [find_most_freq_kmer] on an empty segment *)

Lemma max_by_from_pure {A} (f : A -> A -> comparison) (l : list A) (acc : A) :
  exists r, max_by_from (fun a b => Ok (f a b)) acc l = Ok r.
Proof.
  revert acc. induction l as [|y ys IH]; intros acc; cbn [max_by_from]; [eauto|].
  rewrite bind_Ok. apply IH.
Qed.

Lemma max_by_pure {A} (f : A -> A -> comparison) (l : list A) :
  exists r, max_by (fun a b => Ok (f a b)) l = Ok r.
Proof.
  destruct l as [|x xs]; cbn [max_by]; [eauto|].
  destruct (max_by_from_pure f xs x) as [r Hr]. rewrite Hr, bind_Ok. eauto.
Qed.

(** The only panic of the per-segment body is an [unwrap] on [None]. *)
Lemma scan_segment_panic_reason skipped st segment r :
  scan_segment skipped st segment = Panic r -> r = PUnwrapNone.
Proof.
  unfold scan_segment. destruct st as [totals cands].
  case_bool_decide; [discriminate|].
  destruct (foldl _ _ _) as [[kmer_map kmer_counts] totals'].
  destruct (max_by_pure (fun a b : string * nat => Nat.compare a.2 b.2)
              (map_to_list kmer_counts)) as [best Hbest].
  rewrite Hbest, bind_Ok.
  destruct best as [[w freq]|]; unfold unwrap; [rewrite bind_Ok|rewrite bind_Panic; congruence].
  destruct (kmer_map !! w); [rewrite bind_Ok; discriminate|rewrite bind_Panic; congruence].
Qed.

Lemma scan_segment_empty skipped st segment :
  index segment ∉ skipped -> kmers segment = ∅ ->
  scan_segment skipped st segment = Panic PUnwrapNone.
Proof.
  intros Hsk Hk. unfold scan_segment. destruct st as [totals cands].
  rewrite bool_decide_false by exact Hsk. rewrite Hk, map_to_list_empty.
  cbn [foldl]. rewrite map_to_list_empty. reflexivity.
Qed.

(** C10: a segment that is not skipped and whose count map is empty makes
    [find_most_freq_kmer] panic (the [unwrap] of the maximum of the empty
    per-segment count map), whatever the other segments hold. *)
Theorem find_most_freq_kmer_empty_segment_panics
    (segments : gmap nat Segment) (kmer_segments_mapping : gmap string (gmap nat nat))
    (skipped_segment_indexes : gset nat) (i : nat) (segment : Segment) :
  segments !! i = Some segment ->
  index segment ∉ skipped_segment_indexes ->
  kmers segment = ∅ ->
  find_most_freq_kmer segments kmer_segments_mapping skipped_segment_indexes
    = Panic PUnwrapNone.
Proof.
  intros Hi Hsk Hk. unfold find_most_freq_kmer.
  rewrite (fold_o_panics PUnwrapNone _ segment); [reflexivity| | |].
  - intros b y r' H. by eapply scan_segment_panic_reason.
  - intros b. by apply scan_segment_empty.
  - apply list_elem_of_fmap. exists (i, segment). split; [done|].
    by apply elem_of_map_to_list.
Qed.

Lemma find_most_freq_kmer_empty_segment_panics_witness :
  find_most_freq_kmer gap_segments (make_kmer_segments_mapping gap_segments) ∅
    = Panic PUnwrapNone.
Proof.
  apply (find_most_freq_kmer_empty_segment_panics _ _ _ 0 {| index := 0; kmers := ∅ |}).
  - vm_compute. reflexivity.
  - set_solver.
  - reflexivity.
Defined.

(** ** Partitioning *)

Lemma length_ngrams {A} (n : nat) (l : list A) :
  0 < n -> List.length (ngrams n l) = List.length l + 1 - n.
Proof.
  intros Hn. induction l as [|x xs IH]; simpl; [lia|].
  destruct (Nat.leb_spec n (S (List.length xs))); simpl; lia.
Qed.

Lemma lookup_ngrams {A} (n j : nat) (l : list A) (g : list A) :
  ngrams n l !! j = Some g -> g = take n (drop j l) /\ j + n <= List.length l.
Proof.
  revert j. induction l as [|x xs IH]; intros j; simpl; [discriminate|].
  destruct (Nat.leb_spec n (S (List.length xs))); [|discriminate].
  destruct j as [|j]; simpl.
  - intros [= <-]. split; [reflexivity|lia].
  - intros Hj. destruct (IH j Hj) as [-> Hle]. split; [reflexivity|lia].
Qed.

Lemma lookup_step_by_from {A} (step cnt i : nat) (l : list A) :
  0 < step -> step_by_from step cnt l !! i = l !! (cnt + i * step).
Proof.
  intros Hstep. revert cnt i. induction l as [|x xs IH]; intros cnt i.
  - by rewrite lookup_nil.
  - destruct cnt as [|c].
    + destruct i as [|i]; [reflexivity|].
      change ((x :: step_by_from step (step - 1) xs) !! S i)
        with (step_by_from step (step - 1) xs !! i).
      transitivity (xs !! (step - 1 + i * step)); [apply IH|].
      replace (0 + S i * step) with (S (step - 1 + i * step)) by lia.
      reflexivity.
    + change (step_by_from step c xs !! i = xs !! (c + i * step)). apply IH.
Qed.

Lemma length_step_by_from {A} (step cnt : nat) (l : list A) :
  0 < step ->
  List.length (step_by_from step cnt l)
  = if Nat.leb (List.length l) cnt then 0 else (List.length l - cnt - 1) / step + 1.
Proof.
  intros Hstep. revert cnt. induction l as [|x xs IH]; intros cnt; simpl; [reflexivity|].
  destruct cnt as [|c]; simpl.
  - rewrite IH. destruct (Nat.leb_spec (List.length xs) (step - 1)).
    + rewrite Nat.div_small by lia. reflexivity.
    + replace (List.length xs - 0) with ((List.length xs - step) + 1 * step) by lia.
      rewrite Nat.div_add by lia. replace (List.length xs - (step - 1) - 1)
        with (List.length xs - step) by lia. lia.
  - rewrite IH. reflexivity.
Qed.

Lemma lookup_map {A B} (f : A -> B) (l : list A) (i : nat) :
  map f l !! i = f <$> (l !! i).
Proof. revert i. induction l as [|x xs IH]; intros [|i]; simpl; auto. Qed.

Lemma substring_take_drop (n m : nat) (s : string) :
  substring n m s = collect (take m (drop n (chars s))).
Proof.
  revert n m. induction s as [|c s IH]; intros n m.
  - destruct n, m; reflexivity.
  - destruct n as [|n].
    + destruct m as [|m]; [reflexivity|]. simpl.
      rewrite IH. reflexivity.
    + simpl. apply IH.
Qed.

Lemma length_collect (l : list ascii) : String.length (collect l) = List.length l.
Proof. induction l as [|c l IH]; simpl; congruence. Qed.

Lemma length_chars (s : string) : List.length (chars s) = String.length s.
Proof. rewrite <- (collect_chars s) at 2. by rewrite length_collect. Qed.

(** C8: for [0 < W] and [2 W <= L], [partitioning_sequence] returns
    [(L - 2 W) / W + 1] partitions, the [i]-th being the [2 W] characters
    from position [i W] on; the 16-character fixture with [W = 5] gives
    "AACCTTGGAA" and "TGGAACCTTG".  ([W = 0] is left out: the formula
    divides by [W], and the source panics there.) *)
Theorem partitioning_sequence_spec :
  (forall (sequence : string) (ovlp_windows_size : nat),
     0 < ovlp_windows_size ->
     2 * ovlp_windows_size <= String.length sequence ->
     exists partitions,
       partitioning_sequence sequence ovlp_windows_size = Ok partitions /\
       List.length partitions
         = (String.length sequence - 2 * ovlp_windows_size) / ovlp_windows_size + 1 /\
       (forall i p, partitions !! i = Some p ->
          p = substring (i * ovlp_windows_size) (2 * ovlp_windows_size) sequence /\
          String.length p = 2 * ovlp_windows_size)) /\
  partitioning_sequence "AACCTTGGAACCTTGG" 5 = Ok ["AACCTTGGAA"; "TGGAACCTTG"].
Proof.
  split; [|reflexivity].
  intros s w Hw Hlen. unfold partitioning_sequence.
  rewrite bool_decide_false by lia.
  eexists. split; [reflexivity|]. split.
  - rewrite length_map. unfold step_by. rewrite length_step_by_from by lia.
    rewrite length_ngrams by lia. rewrite length_chars.
    destruct (Nat.leb_spec (String.length s + 1 - w * 2) 0); [lia|].
    f_equal. f_equal. lia.
  - intros i p Hp.
    rewrite lookup_map in Hp.
    destruct (step_by w (ngrams (w * 2) (chars s)) !! i) as [g|] eqn:Hg; [|discriminate].
    injection Hp as <-. unfold step_by in Hg. rewrite lookup_step_by_from in Hg by lia.
    apply lookup_ngrams in Hg as [-> Hle]. rewrite length_chars in Hle.
    split.
    + rewrite substring_take_drop. f_equal. f_equal. lia.
    + rewrite length_collect, length_take, length_drop, length_chars. lia.
Qed.

Lemma partitioning_sequence_spec_witness :
  exists partitions,
    partitioning_sequence "AACCTTGGAACCTTGGA" 4 = Ok partitions /\
    List.length partitions = (17 - 2 * 4) / 4 + 1 /\
    (forall i p, partitions !! i = Some p ->
       p = substring (i * 4) (2 * 4) "AACCTTGGAACCTTGGA" /\ String.length p = 2 * 4).
Proof. apply (proj1 partitioning_sequence_spec); simpl; lia. Defined.

(** ** Order of the stop test in the greedy loop *)

Lemma greedy_rounds_tolerance_0
    (find : gset nat -> outcome (option (KmerFrequency * gset nat)))
    (total_segments fuel : nat) (skipped : gset nat) (acc : list KmerFrequency) :
  greedy_rounds find total_segments 0 fuel skipped acc
  = greedy_rounds_record_first find total_segments 0 fuel skipped acc.
Proof.
  revert skipped acc. induction fuel as [|fuel IH]; intros skipped acc; [reflexivity|].
  cbn [greedy_rounds greedy_rounds_record_first].
  destruct (find skipped) as [[[w new]|]|r]; rewrite ?bind_Ok, ?bind_Panic; [|reflexivity|reflexivity].
  destruct (usize_sub total_segments (size (skipped ∪ new))) as [rem|r];
    rewrite ?bind_Ok, ?bind_Panic; [|reflexivity].
  rewrite !bool_decide_false by lia. apply IH.
Qed.

(** C1: with the source's tolerance [MAX_MISMATCH_SEGMENTS = 0] the
    [usize] stop test [remaining < 0] never holds, so on every input
    [get_candidates_kmers] returns what the loop ordered as in the spec
    (record the round's winner, then test the stop condition) returns:
    the same list, or the same panic.  In particular no run has a round
    in which the stop condition becomes true, and the winner of every
    round that selects one is in the returned list. *)
Theorem get_candidates_kmers_record_first (segments : gmap nat Segment) :
  get_candidates_kmers segments
  = greedy_rounds_record_first
      (find_most_freq_kmer segments (make_kmer_segments_mapping segments))
      (size segments) MAX_MISMATCH_SEGMENTS MAX_ITERATIONS ∅ [] /\
  forall remaining_segments, ~ remaining_segments < MAX_MISMATCH_SEGMENTS.
Proof.
  split.
  - unfold get_candidates_kmers, get_candidates_kmers_tol. apply greedy_rounds_tolerance_0.
  - unfold MAX_MISMATCH_SEGMENTS. lia.
Qed.

(** ** The final filter *)

Lemma gc_bounds_true (x : f32) :
  f32_ge x 40 && f32_le x 60 = true <-> exists q, x = F32 q /\ (40 <= q)%Q /\ (q <= 60)%Q.
Proof.
  destruct x as [q|]; simpl.
  - rewrite andb_true_iff, !Qle_bool_iff. split.
    + intros [H1 H2]. eauto.
    + intros (q' & [= <-] & H1 & H2). auto.
  - split; [discriminate|]. intros (q & H & _). discriminate.
Qed.

Lemma primer_filter_true (st : Stat.KmerStat) :
  primer_filter st = true <->
  Stat.tm_ok st = true /\ Stat.repeats st = false /\ Stat.runs st = false /\
  exists q, Stat.gc_percent st = F32 q /\ (40 <= q)%Q /\ (q <= 60)%Q.
Proof.
  unfold primer_filter. rewrite <- andb_assoc, <- gc_bounds_true.
  rewrite !andb_true_iff, !negb_true_iff. tauto.
Qed.

(** C5: a candidate's statistics are kept by the filter of [main] iff
    [tm_ok] holds, neither composition flag is set, and its GC percentage
    (the [f32] value of [get_gc_percent]) lies in [40, 60]; the hairpin
    flag is not read; values 40 and 60 pass, values outside the interval
    (such as 39.99 and 60.01) fail. *)
Theorem candidate_primers_spec (in_tm_threshold : string -> bool)
    (kmer_records : list KmerFrequency) (k : KmerFrequency) :
  k ∈ kmer_records ->
  (kmer_stat in_tm_threshold k
     ∈ candidate_primers (get_kmer_stats in_tm_threshold kmer_records)
   <-> in_tm_threshold (word (kmer k)) = true /\
       is_repeats (word (kmer k)) = false /\
       is_run (word (kmer k)) = false /\
       exists q, get_gc_percent (word (kmer k)) = F32 q /\ (40 <= q)%Q /\ (q <= 60)%Q) /\
  (forall st b, primer_filter (with_hairpin st b) = primer_filter st) /\
  (forall st, Stat.gc_percent st = F32 40 \/ Stat.gc_percent st = F32 60 ->
     primer_filter st = Stat.tm_ok st && negb (Stat.repeats st) && negb (Stat.runs st)) /\
  (forall st q, Stat.gc_percent st = F32 q -> (q < 40)%Q \/ (60 < q)%Q ->
     primer_filter st = false).
Proof.
  intros Hk. split; [|split; [|split]].
  - unfold candidate_primers, get_kmer_stats.
    rewrite list_elem_of_filter.
    assert (Hin : kmer_stat in_tm_threshold k ∈ map (kmer_stat in_tm_threshold) kmer_records).
    { rewrite list_elem_of_In. apply in_map. by rewrite <- list_elem_of_In. }
    transitivity (primer_filter (kmer_stat in_tm_threshold k) = true);
      [|apply primer_filter_true].
    destruct (primer_filter _); simpl; split.
    + intros _. reflexivity.
    + intros _. split; [exact I|exact Hin].
    + intros [[] _].
    + discriminate.
  - intros st b. reflexivity.
  - intros st [H|H]; unfold primer_filter; rewrite H; simpl;
      rewrite !andb_true_r; reflexivity.
  - intros st q Hq Hout. destruct (primer_filter st) eqn:E; [|reflexivity].
    apply primer_filter_true in E as (_ & _ & _ & q' & Hq' & H1 & H2).
    rewrite Hq in Hq'. injection Hq' as <-.
    destruct Hout as [Hout|Hout]; apply Qlt_not_le in Hout; contradiction.
Qed.

Lemma candidate_primers_spec_witness :
  let k := {| kmer := fwd "ACGTACGTACGTA"; frequency := 3 |} in
  (kmer_stat (fun _ => true) k ∈ candidate_primers (get_kmer_stats (fun _ => true) [k])
   <-> true = true /\ is_repeats "ACGTACGTACGTA" = false /\ is_run "ACGTACGTACGTA" = false /\
       exists q, get_gc_percent "ACGTACGTACGTA" = F32 q /\ (40 <= q)%Q /\ (q <= 60)%Q).
Proof.
  apply (candidate_primers_spec (fun _ => true) [{| kmer := fwd "ACGTACGTACGTA"; frequency := 3 |}]).
  apply elem_of_cons. left. reflexivity.
Defined.

(** For the 13-mers the pipeline selects ([KMER_SIZE = 13]), the [f32]
    bound test agrees with the exact percentage [100 g / 13]. *)
Lemma gc_bounds_13mers (g : nat) :
  g <= 13 ->
  f32_ge (F32 (f32_of_Q (f32_of_Q (Z.of_nat g # 13) * 100))) 40
  && f32_le (F32 (f32_of_Q (f32_of_Q (Z.of_nat g # 13) * 100))) 60
  = Nat.leb (40 * 13) (100 * g) && Nat.leb (100 * g) (60 * 13).
Proof.
  intros Hg.
  do 14 (destruct g as [|g]; [vm_compute; reflexivity|]). lia.
Qed.

(** ** Counts of [get_segments] *)

Lemma unique_from_spec (l seen : list string) :
  NoDup (unique_from seen l) /\
  (forall x, x ∈ unique_from seen l <-> x ∈ l /\ x ∉ seen).
Proof.
  revert seen. induction l as [|y ys IH]; intros seen; simpl.
  - split; [constructor|]. intros x. rewrite elem_of_nil. tauto.
  - case_bool_decide as Hy.
    + destruct (IH seen) as [Hnd Hmem]. split; [exact Hnd|].
      intros x. rewrite Hmem, elem_of_cons. split; [tauto|].
      intros [[->|Hx] Hn]; [contradiction|tauto].
    + destruct (IH (y :: seen)) as [Hnd Hmem]. split.
      * apply NoDup_cons. split; [|exact Hnd].
        rewrite Hmem, elem_of_cons. tauto.
      * intros x. rewrite elem_of_cons, Hmem, !elem_of_cons.
        split; [intros [->|[Hx Hn]]; tauto|].
        intros [[->|Hx] Hn]; [left; reflexivity|].
        destruct (decide (x = y)) as [->|Hne]; [left; reflexivity|right; tauto].
Qed.

Lemma find_kmers_spec (s : string) (kmer_size : nat) :
  NoDup (find_kmers s kmer_size) /\
  (forall w, w ∈ find_kmers s kmer_size <-> w ∈ raw_kmers s kmer_size).
Proof.
  unfold find_kmers, unique. destruct (unique_from_spec (raw_kmers s kmer_size) [])
    as [Hnd Hmem].
  split; [exact Hnd|]. intros w. rewrite Hmem, elem_of_nil. tauto.
Qed.

Lemma to_records_dir_elem (d : nat) (ws : list string) (k : KmerRecord) :
  k ∈ to_records_dir d ws <-> direction k = d /\ word k ∈ ws.
Proof.
  unfold to_records_dir. rewrite !list_elem_of_In, in_map_iff. split.
  - intros (w & <- & Hw). simpl. auto.
  - intros [Hd Hw]. exists (word k). split; [|exact Hw].
    destruct k; simpl in *. by subst.
Qed.

Lemma to_records_dir_NoDup (d : nat) (ws : list string) :
  NoDup ws -> NoDup (to_records_dir d ws).
Proof.
  induction ws as [|w ws IH]; simpl; intros Hnd; [constructor|].
  apply NoDup_cons in Hnd as [Hw Hnd]. apply NoDup_cons. split; [|auto].
  rewrite to_records_dir_elem. simpl. tauto.
Qed.

Lemma incr_cnt (k' k : KmerRecord) (m : gmap KmerRecord nat) :
  cnt (incr k' m) k = cnt m k + (if bool_decide (k = k') then 1 else 0).
Proof.
  unfold incr, cnt. case_bool_decide as Hk.
  - subst. rewrite lookup_insert_eq. destruct (m !! k'); simpl; lia.
  - rewrite lookup_insert_ne by congruence. lia.
Qed.

Lemma foldl_incr_cnt (ks : list KmerRecord) (m : gmap KmerRecord nat) (k : KmerRecord) :
  NoDup ks ->
  cnt (foldl (fun m k => incr k m) m ks) k = cnt m k + (if bool_decide (k ∈ ks) then 1 else 0).
Proof.
  revert m. induction ks as [|k' ks IH]; intros m Hnd; simpl.
  - try (rewrite bool_decide_false by (rewrite elem_of_nil; tauto)). lia.
  - apply NoDup_cons in Hnd as [Hk' Hnd].
    rewrite IH by exact Hnd. rewrite incr_cnt.
    destruct (decide (k = k')) as [->|Hne].
    + rewrite (bool_decide_true (k' = k')) by reflexivity.
      rewrite (bool_decide_false (k' ∈ ks)) by exact Hk'.
      rewrite bool_decide_true by (apply elem_of_cons; left; reflexivity). lia.
    + rewrite (bool_decide_false (k = k')) by exact Hne.
      assert (Hiff : k ∈ k' :: ks <-> k ∈ ks) by (rewrite elem_of_cons; tauto).
      destruct (bool_decide_reflect (k ∈ ks)) as [H|H];
        [rewrite bool_decide_true by (by apply Hiff)
        |rewrite bool_decide_false by (by rewrite Hiff)]; lia.
Qed.

Lemma partition_kmers_elem (f r : string) (kmer_size : nat) (k : KmerRecord) :
  k ∈ (to_records_dir SEQ_DIR_FWD (find_kmers f kmer_size)
       ++ to_records_dir SEQ_DIR_REV (find_kmers (reverse_complement r) kmer_size))%list
  <-> word k ∈ (if Nat.eqb (direction k) SEQ_DIR_FWD then raw_kmers f kmer_size
               else if Nat.eqb (direction k) SEQ_DIR_REV
                    then raw_kmers (reverse_complement r) kmer_size else []).
Proof.
  rewrite elem_of_app, !to_records_dir_elem.
  rewrite (proj2 (find_kmers_spec f kmer_size)),
          (proj2 (find_kmers_spec (reverse_complement r) kmer_size)).
  unfold SEQ_DIR_FWD, SEQ_DIR_REV.
  destruct (direction k) as [|[|d]]; simpl.
  - split; [intros [[_ H]|[H _]]; [exact H|discriminate]|intros H; left; auto].
  - split; [intros [[H _]|[_ H]]; [discriminate|exact H]|intros H; right; auto].
  - rewrite elem_of_nil. split; [intros [[H _]|[H _]]; discriminate|tauto].
Qed.

Lemma partition_kmers_NoDup (f r : string) (kmer_size : nat) :
  NoDup (to_records_dir SEQ_DIR_FWD (find_kmers f kmer_size)
         ++ to_records_dir SEQ_DIR_REV (find_kmers (reverse_complement r) kmer_size))%list.
Proof.
  apply NoDup_app. split; [|split].
  - apply to_records_dir_NoDup, find_kmers_spec.
  - intros x. rewrite !to_records_dir_elem. intros [H1 _] [H2 _].
    rewrite H1 in H2. discriminate.
  - apply to_records_dir_NoDup, find_kmers_spec.
Qed.

Lemma add_partition_cnt (kmer_size search_windows_size : nat)
    (segments segments' : gmap nat Segment) (idx : nat) (p : string) (j : nat) (k : KmerRecord) :
  add_partition kmer_size search_windows_size segments idx p = Ok segments' ->
  cnt_at segments' j k
  = cnt_at segments j k
    + (if bool_decide (j = idx) && bool_decide (word k ∈ window_words p kmer_size search_windows_size (direction k))
       then 1 else 0).
Proof.
  unfold add_partition.
  destruct (get_sequence_on_search_windows p search_windows_size) as [[f r]|rr] eqn:Hw;
    [rewrite bind_Ok|rewrite bind_Panic; discriminate].
  intros [= <-]. unfold cnt_at, window_words. rewrite Hw.
  destruct (decide (j = idx)) as [->|Hne].
  - rewrite lookup_insert_eq, (bool_decide_true (idx = idx)) by reflexivity.
    cbn [kmers andb].
    rewrite foldl_incr_cnt by apply partition_kmers_NoDup.
    rewrite (bool_decide_ext _ _ (partition_kmers_elem f r kmer_size k)).
    destruct (segments !! idx); reflexivity.
  - rewrite lookup_insert_ne by congruence. rewrite bool_decide_false by exact Hne.
    simpl. lia.
Qed.

Lemma add_partitions_cnt (kmer_size search_windows_size start : nat) (partitions : list string)
    (segments segments' : gmap nat Segment) (j : nat) (k : KmerRecord) :
  add_partitions kmer_size search_windows_size start partitions segments = Ok segments' ->
  cnt_at segments' j k
  = cnt_at segments j k
    + (if bool_decide (start <= j) then
         match partitions !! (j - start) with
         | Some p =>
             if bool_decide (word k ∈ window_words p kmer_size search_windows_size (direction k))
             then 1 else 0
         | None => 0
         end
       else 0).
Proof.
  revert start segments segments'.
  induction partitions as [|p ps IH]; intros start segments segments' H; cbn [add_partitions] in H.
  - injection H as <-. rewrite lookup_nil. destruct (bool_decide _); lia.
  - apply bind_Ok_inv in H as (segs1 & H1 & H2).
    rewrite (IH _ _ _ H2), (add_partition_cnt _ _ _ _ _ _ j k H1).
    destruct (decide (j = start)) as [->|Hne].
    + rewrite (bool_decide_true (start = start)) by reflexivity.
      rewrite (bool_decide_false (S start <= start)) by lia.
      rewrite (bool_decide_true (start <= start)) by lia.
      rewrite Nat.sub_diag. change ((p :: ps) !! 0) with (Some p).
      cbn [andb]. lia.
    + rewrite (bool_decide_false (j = start)) by exact Hne. cbn [andb].
      destruct (decide (start < j)) as [Hlt|Hge].
      * rewrite (bool_decide_true (S start <= j)) by lia.
        rewrite (bool_decide_true (start <= j)) by lia.
        replace (j - start) with (S (j - S start)) by lia.
        change ((p :: ps) !! S (j - S start)) with (ps !! (j - S start)). lia.
      * rewrite (bool_decide_false (S start <= j)) by lia.
        rewrite (bool_decide_false (start <= j)) by lia. lia.
Qed.

Lemma add_record_cnt (log_debug_enabled : bool)
    (ovlp_windows_size kmer_size search_windows_size : nat)
    (segments segments' : gmap nat Segment) (rec : SequenceRecord) (j : nat) (k : KmerRecord) :
  add_record log_debug_enabled ovlp_windows_size kmer_size search_windows_size segments rec
    = Ok segments' ->
  cnt_at segments' j k
  = cnt_at segments j k
    + (if exhibits ovlp_windows_size kmer_size search_windows_size j k rec then 1 else 0).
Proof.
  unfold add_record, exhibits.
  destruct (partitioning_sequence (sequence rec) ovlp_windows_size) as [parts|rr];
    [rewrite bind_Ok|rewrite bind_Panic; discriminate].
  intros H. apply bind_Ok_inv in H as (_ & _ & H).
  rewrite (add_partitions_cnt _ _ _ _ _ _ j k H).
  rewrite (bool_decide_true (0 <= j)) by lia. rewrite Nat.sub_0_r.
  destruct (parts !! j); reflexivity.
Qed.

Lemma fold_add_record_cnt (log_debug_enabled : bool)
    (ovlp_windows_size kmer_size search_windows_size : nat) (records : list SequenceRecord)
    (segments segments' : gmap nat Segment) (j : nat) (k : KmerRecord) :
  fold_o (add_record log_debug_enabled ovlp_windows_size kmer_size search_windows_size)
    records segments = Ok segments' ->
  cnt_at segments' j k
  = cnt_at segments j k
    + List.length (filter (exhibits ovlp_windows_size kmer_size search_windows_size j k) records).
Proof.
  revert segments. induction records as [|r rs IH]; intros segments H; cbn [fold_o] in H.
  - injection H as <-. simpl. lia.
  - apply bind_Ok_inv in H as (segs1 & H1 & H2).
    rewrite (IH _ H2), (add_record_cnt _ _ _ _ _ _ _ _ _ H1).
    rewrite filter_cons.
    destruct (exhibits ovlp_windows_size kmer_size search_windows_size j k r); simpl; lia.
Qed.

(** C7: after [get_segments] returns, the count stored in segment [i] for
    a word and strand is the number of input records whose search window
    at partition [i] exhibits that word on that strand: each record adds at
    most 1, however often the k-mer occurs in its window. *)
Theorem get_segments_counts (log_debug_enabled : bool) (records : list SequenceRecord)
    (ovlp_windows_size kmer_size search_windows_size : nat)
    (segments : gmap nat Segment) (i : nat) (segment : Segment) (k : KmerRecord) (n : nat) :
  get_segments log_debug_enabled records ovlp_windows_size kmer_size search_windows_size
    = Ok segments ->
  segments !! i = Some segment ->
  kmers segment !! k = Some n ->
  n = List.length
        (filter (exhibits ovlp_windows_size kmer_size search_windows_size i k) records).
Proof.
  intros H Hi Hk. unfold get_segments in H.
  case_bool_decide; [discriminate|].
  pose proof (fold_add_record_cnt _ _ _ _ _ _ _ i k H) as Hc.
  unfold cnt_at in Hc. rewrite Hi, lookup_empty in Hc. unfold cnt in Hc.
  rewrite Hk in Hc. simpl in Hc. lia.
Qed.

Lemma get_segments_counts_witness :
  2 = List.length (filter (exhibits 5 3 5 0 {| word := "AAC"; direction := 0 |}) fixture_records).
Proof.
  apply (get_segments_counts true fixture_records 5 3 5 fixture_segments_built 0 fixture_segment0).
  - vm_compute. reflexivity.
  - vm_compute. reflexivity.
  - vm_compute. reflexivity.
Defined.

(* ================================================================== *)
(** * Further properties of the program *)

Open Scope nat_scope.

(** ** Final runs: [is_run] and [is_repeats] *)

Section Runs.
Local Open Scope list_scope.
Context {A : Type} `{EqDecision A}.

(** The loop shape shared by [is_run] and [is_repeats]: the counter grows
    when the element equals the previous one and is reset otherwise. *)
Variable f : nat * A -> A -> nat * A.
Hypothesis f_step :
  forall r c x, f (r, c) x = (if bool_decide (x = c) then S r else 0, x).




End Runs.

Section RunsOfWords.
Local Open Scope list_scope.







Lemma ngrams_elem_length {A} (n : nat) (l g : list A) :
  g ∈ ngrams n l -> List.length g = n.
Proof.
  induction l as [|x xs IH]; simpl; [by rewrite elem_of_nil|].
  destruct (Nat.leb_spec n (S (List.length xs))); [|by rewrite elem_of_nil].
  rewrite elem_of_cons. intros [->|Hg]; [|auto].
  rewrite length_take. simpl. lia.
Qed.










End RunsOfWords.


Lemma chars_app (s t : string) : chars (s ++ t) = (chars s ++ chars t)%list.
Proof. induction s as [|c s IH]; simpl; [reflexivity|]. unfold chars in *. by rewrite IH. Qed.

Lemma collect_app (l1 l2 : list ascii) : collect (l1 ++ l2)%list = collect l1 ++ collect l2.
Proof. induction l1 as [|c l1 IH]; simpl; [reflexivity|]. unfold collect in *. by rewrite IH. Qed.

(** X4: [reverse_complement] turns a concatenation around ([rc (s ++ t) = rc t ++ rc s]) and keeps the length. *)
Theorem reverse_complement_app_length (s t : string) :
  reverse_complement (s ++ t) = reverse_complement t ++ reverse_complement s /\
  String.length (reverse_complement s) = String.length s.
Proof.
  split.
  - unfold reverse_complement. rewrite chars_app, rev_app_distr, map_app.
    apply collect_app.
  - unfold reverse_complement. rewrite length_collect, length_map, length_rev.
    apply length_chars.
Qed.

(** ** [find_kmers] *)

Lemma lookup_ngrams_some {A} (n j : nat) (l : list A) :
  0 < n -> j + n <= List.length l -> ngrams n l !! j = Some (take n (drop j l)).
Proof.
  intros Hn. revert j. induction l as [|x xs IH]; intros j Hj; simpl in *; [lia|].
  destruct (Nat.leb_spec n (S (List.length xs))); [|lia].
  destruct j as [|j]; [reflexivity|]. simpl. apply IH. lia.
Qed.

Lemma elem_of_ngrams {A} (n : nat) (l g : list A) :
  0 < n ->
  g ∈ ngrams n l <-> exists j, j + n <= List.length l /\ g = take n (drop j l).
Proof.
  intros Hn. rewrite list_elem_of_lookup. split.
  - intros [j Hj]. apply lookup_ngrams in Hj as [-> Hle]. eauto.
  - intros (j & Hle & ->). exists j. by apply lookup_ngrams_some.
Qed.

(** X5: for a positive k-mer size at most one more than the length of the sequence (the ngrams crate panics on size 0 and on a shorter input), [find_kmers] returns pairwise distinct words, and a word is returned exactly when it is the substring of length [kmer_size] at some position of the sequence and contains no excluded character. *)
Theorem find_kmers_iff (sequence : string) (kmer_size : nat) :
  0 < kmer_size -> kmer_size <= String.length sequence + 1 ->
  NoDup (find_kmers sequence kmer_size) /\
  forall w, w ∈ find_kmers sequence kmer_size <->
    (exists i, i + kmer_size <= String.length sequence /\ w = substring i kmer_size sequence) /\
    Forall (fun c => c ∉ excluded_chars) (chars w).
Proof.
  intros Hk _. destruct (find_kmers_spec sequence kmer_size) as [Hnd Hmem].
  split; [exact Hnd|]. intros w. rewrite Hmem. unfold raw_kmers.
  rewrite list_elem_of_fmap. split.
  - intros (g & -> & Hg). apply list_elem_of_filter in Hg as [Hok Hg].
    apply elem_of_ngrams in Hg as (j & Hle & ->); [|exact Hk].
    split.
    + exists j. rewrite length_chars in Hle. split; [exact Hle|].
      by rewrite substring_take_drop.
    + rewrite chars_collect. apply Is_true_true in Hok.
      rewrite List.forallb_forall in Hok. apply Forall_forall.
      intros c Hc. specialize (Hok c (proj1 (list_elem_of_In _ _) Hc)). apply negb_true_iff, bool_decide_eq_false in Hok.
      exact Hok.
  - intros [(i & Hle & ->) Hok]. rewrite substring_take_drop in Hok |- *.
    exists (take kmer_size (drop i (chars sequence))). split; [reflexivity|].
    apply list_elem_of_filter. split.
    + apply Is_true_true. rewrite chars_collect in Hok.
      apply List.forallb_forall. intros c Hc. apply negb_true_iff, bool_decide_eq_false.
      rewrite Forall_forall in Hok. apply Hok. by apply list_elem_of_In.
    + apply elem_of_ngrams; [exact Hk|]. exists i. rewrite length_chars. auto.
Qed.

Lemma find_kmers_iff_witness :
  NoDup (find_kmers "ACGNACG" 3) /\
  forall w, w ∈ find_kmers "ACGNACG" 3 <->
    (exists i, i + 3 <= String.length "ACGNACG" /\ w = substring i 3 "ACGNACG") /\
    Forall (fun c => c ∉ excluded_chars) (chars w).
Proof. apply (find_kmers_iff "ACGNACG" 3); simpl; lia. Defined.

(** ** Search windows *)

(** X6: [get_sequence_on_search_windows] returns the prefix and the suffix of length [search_windows_size] when the sequence is that long, and panics on the slice bounds otherwise. *)
Theorem get_sequence_on_search_windows_cases (sequence : string) (search_windows_size : nat) :
  match get_sequence_on_search_windows sequence search_windows_size with
  | Ok (first, second) =>
      search_windows_size <= String.length sequence /\
      String.length first = search_windows_size /\
      String.length second = search_windows_size /\
      (exists rest, sequence = first ++ rest) /\
      (exists rest, sequence = rest ++ second)
  | Panic r => String.length sequence < search_windows_size /\ r = PSliceBounds
  end.
Proof.
  unfold get_sequence_on_search_windows. case_bool_decide as Hlt; [auto|].
  set (n := search_windows_size). set (L := String.length sequence).
  assert (HL : List.length (chars sequence) = L) by apply length_chars.
  rewrite !substring_take_drop. split; [lia|]. split; [|split; [|split]].
  - rewrite length_collect, length_take, length_drop. lia.
  - rewrite length_collect, length_take, length_drop. lia.
  - exists (collect (drop n (chars sequence))).
    rewrite drop_0, <- collect_app, take_drop. by rewrite collect_chars.
  - exists (collect (take (L - n) (chars sequence))).
    rewrite <- collect_app, (take_ge (drop (L - n) (chars sequence)) n) by (rewrite length_drop; lia).
    rewrite take_drop. by rewrite collect_chars.
Qed.

(** ** Partitions *)

Lemma partitioning_sequence_lookup (sequence : string) (ovlp_windows_size : nat) (partitions : list string) :
  partitioning_sequence sequence ovlp_windows_size = Ok partitions ->
  0 < ovlp_windows_size /\
  forall i, partitions !! i =
    if bool_decide (i * ovlp_windows_size + 2 * ovlp_windows_size <= String.length sequence)
    then Some (substring (i * ovlp_windows_size) (2 * ovlp_windows_size) sequence)
    else None.
Proof.
  unfold partitioning_sequence. case_bool_decide as Hw; [discriminate|].
  intros [= <-]. split; [lia|]. intros i.
  rewrite lookup_map. unfold step_by. rewrite lookup_step_by_from by lia.
  rewrite Nat.add_0_l, Nat.mul_comm with (n := ovlp_windows_size) (m := 2).
  case_bool_decide as Hle.
  - rewrite lookup_ngrams_some by (rewrite ?length_chars; lia). simpl.
    by rewrite substring_take_drop.
  - rewrite lookup_ge_None_2; [reflexivity|].
    rewrite length_ngrams, length_chars by lia. lia.
Qed.

Lemma partitioning_sequence_shape (sequence : string) (ovlp_windows_size : nat) :
  match partitioning_sequence sequence ovlp_windows_size with
  | Ok partitions =>
      0 < ovlp_windows_size /\
      (partitions = [] <-> String.length sequence < 2 * ovlp_windows_size) /\
      Forall (fun p => String.length p = 2 * ovlp_windows_size) partitions
  | Panic r => ovlp_windows_size = 0 /\ r = PZeroSize
  end.
Proof.
  destruct (partitioning_sequence sequence ovlp_windows_size) as [ps|r] eqn:E.
  - apply partitioning_sequence_lookup in E as [Hw Hl]. split; [exact Hw|]. split.
    + specialize (Hl 0). rewrite Nat.mul_0_l, Nat.add_0_l in Hl. split.
      * intros ->. rewrite lookup_nil in Hl. case_bool_decide; [discriminate|lia].
      * intros Hlt. rewrite bool_decide_false in Hl by lia.
        destruct ps; [reflexivity|discriminate].
    + apply Forall_lookup. intros i p Hp. rewrite Hl in Hp.
      case_bool_decide; [|discriminate]. injection Hp as <-.
      rewrite substring_take_drop, length_collect, length_take, length_drop, length_chars. lia.
  - unfold partitioning_sequence in E. case_bool_decide; [|discriminate].
    injection E as <-. split; [lia|reflexivity].
Qed.

(** X7: when twice the window size fits in [usize] (below 2^64; the source computes [ovlp_windows_size * 2]), [partitioning_sequence] panics exactly when the window size is 0; otherwise every partition has length twice the window size, and there are none exactly when the sequence is shorter than that. *)
Theorem partitioning_sequence_cases (sequence : string) (ovlp_windows_size : nat) :
  (Z.of_nat ovlp_windows_size * 2 < 2 ^ 64)%Z ->
  match partitioning_sequence sequence ovlp_windows_size with
  | Ok partitions =>
      0 < ovlp_windows_size /\
      (partitions = [] <-> String.length sequence < 2 * ovlp_windows_size) /\
      Forall (fun p => String.length p = 2 * ovlp_windows_size) partitions
  | Panic r => ovlp_windows_size = 0 /\ r = PZeroSize
  end.
Proof. intros _. apply partitioning_sequence_shape. Qed.

Lemma partitioning_sequence_cases_witness :
  match partitioning_sequence "AACCTTGGAACCTTGG" 5 with
  | Ok partitions =>
      0 < 5 /\
      (partitions = [] <-> String.length "AACCTTGGAACCTTGG" < 2 * 5) /\
      Forall (fun p => String.length p = 2 * 5) partitions
  | Panic r => 5 = 0 /\ r = PZeroSize
  end.
Proof. apply partitioning_sequence_cases. vm_compute. reflexivity. Defined.


(** ** When [get_segments] returns *)








(** ** Shape of the segments *)

Lemma add_partition_shape k s segs segs' idx p :
  add_partition k s segs idx p = Ok segs' ->
  (index_inv segs -> index_inv segs') /\
  (forall i, is_Some (segs' !! i) <-> is_Some (segs !! i) \/ i = idx).
Proof.
  unfold add_partition.
  destruct (get_sequence_on_search_windows p s) as [[f r]|rr];
    [rewrite bind_Ok|rewrite bind_Panic; discriminate].
  intros [= <-]. split.
  - intros Hinv i seg Hi. destruct (decide (i = idx)) as [->|Hne].
    + rewrite lookup_insert_eq in Hi. injection Hi as <-. simpl.
      destruct (segs !! idx) as [seg0|] eqn:E; simpl; [by apply Hinv|reflexivity].
    + rewrite lookup_insert_ne in Hi by congruence. by apply Hinv.
  - intros i. destruct (decide (i = idx)) as [->|Hne].
    + rewrite lookup_insert_eq. split; [intros _; by right|intros _; eauto].
    + rewrite lookup_insert_ne by congruence. tauto.
Qed.

Lemma add_partitions_shape k s idx ps segs segs' :
  add_partitions k s idx ps segs = Ok segs' ->
  (index_inv segs -> index_inv segs') /\
  (forall i, is_Some (segs' !! i) <->
             is_Some (segs !! i) \/ (idx <= i /\ i < idx + List.length ps)).
Proof.
  revert idx segs. induction ps as [|p ps IH]; intros idx segs H; cbn [add_partitions] in H.
  - injection H as <-. split; [tauto|]. intros i. simpl. intuition lia.
  - apply bind_Ok_inv in H as (segs1 & H1 & H2).
    destruct (add_partition_shape _ _ _ _ _ _ H1) as [Hi1 Hd1].
    destruct (IH _ _ H2) as [Hi2 Hd2]. split; [tauto|].
    intros i. rewrite Hd2, Hd1. simpl. intuition (subst; lia).
Qed.

Lemma add_record_shape dbg w k s segs segs' r :
  add_record dbg w k s segs r = Ok segs' ->
  (index_inv segs -> index_inv segs') /\
  (forall i, is_Some (segs' !! i) <->
             is_Some (segs !! i) \/ i * w + 2 * w <= String.length (sequence r)).
Proof.
  unfold add_record. intros H. apply bind_Ok_inv in H as (ps & Hps & H).
  apply bind_Ok_inv in H as (_ & _ & H).
  destruct (add_partitions_shape _ _ _ _ _ _ H) as [Hi Hd]. split; [exact Hi|].
  apply partitioning_sequence_lookup in Hps as [Hw Hl].
  intros i. rewrite Hd. specialize (Hl i).
  assert (i < List.length ps <-> is_Some (ps !! i)) by (rewrite lookup_lt_is_Some; tauto).
  rewrite Hl in H0. case_bool_decide as Hb.
  - assert (i < List.length ps) by (apply H0; eauto).
    split; intros _; right; [exact Hb|lia].
  - assert (~ i < List.length ps) by (rewrite H0; intros [x Hx]; discriminate).
    split; intros [Hs|Hs]; (left; exact Hs) || lia.
Qed.

Lemma fold_add_record_shape dbg w k s recs segs segs' :
  fold_o (add_record dbg w k s) recs segs = Ok segs' ->
  (index_inv segs -> index_inv segs') /\
  (forall i, is_Some (segs' !! i) <->
             is_Some (segs !! i) \/
             exists r, r ∈ recs /\ i * w + 2 * w <= String.length (sequence r)).
Proof.
  revert segs. induction recs as [|r rs IH]; intros segs H; cbn [fold_o] in H.
  - injection H as <-. split; [tauto|]. intros i. split; [tauto|].
    intros [H|(r & Hr & _)]; [exact H|by apply elem_of_nil in Hr].
  - apply bind_Ok_inv in H as (segs1 & H1 & H2).
    destruct (add_record_shape _ _ _ _ _ _ _ H1) as [Hi1 Hd1].
    destruct (IH _ H2) as [Hi2 Hd2]. split; [tauto|].
    intros i. rewrite Hd2, Hd1. split.
    + intros [[H|H]|(r' & Hr' & H)]; [tauto|right; exists r; split; [left|]; done|].
      right. exists r'. split; [by right|done].
    + intros [H|(r' & Hr' & H)]; [tauto|].
      apply elem_of_cons in Hr' as [->|Hr']; [tauto|]. right. eauto.
Qed.

(** X9: in the result of [get_segments] the segment under key [i] has index [i as u16], and key [i] is present exactly when some record holds a whole partition number [i]. *)
Theorem get_segments_keys (log_debug_enabled : bool) (records : list SequenceRecord)
    (ovlp_windows_size kmer_size search_windows_size : nat) (segments : gmap nat Segment) :
  get_segments log_debug_enabled records ovlp_windows_size kmer_size search_windows_size
    = Ok segments ->
  (forall i segment, segments !! i = Some segment -> index segment = as_u16 i) /\
  (forall i, is_Some (segments !! i) <->
     exists r, r ∈ records /\
       i * ovlp_windows_size + 2 * ovlp_windows_size <= String.length (sequence r)).
Proof.
  unfold get_segments. case_bool_decide; [discriminate|]. intros Hf.
  destruct (fold_add_record_shape _ _ _ _ _ _ _ Hf) as [Hi Hd]. split.
  - apply Hi. intros i seg Hs. by rewrite lookup_empty in Hs.
  - intros i. rewrite Hd, lookup_empty. split; [|tauto].
    intros [[x Hx]|H']; [discriminate|exact H'].
Qed.

Lemma get_segments_keys_witness :
  (forall i segment, fixture_segments_built !! i = Some segment -> index segment = as_u16 i) /\
  (forall i, is_Some (fixture_segments_built !! i) <->
     exists r, r ∈ fixture_records /\ i * 5 + 2 * 5 <= String.length (sequence r)).
Proof. apply (get_segments_keys true fixture_records 5 3 5). vm_compute. reflexivity. Defined.

(** ** The k-mers stored in the segments *)

Lemma find_kmers_elem_shape (sequence : string) (kmer_size : nat) (w : string) :
  w ∈ find_kmers sequence kmer_size ->
  String.length w = kmer_size /\ Forall (fun c => c ∉ excluded_chars) (chars w).
Proof.
  intros Hw. apply find_kmers_spec in Hw. unfold raw_kmers in Hw.
  apply list_elem_of_fmap in Hw as (g & -> & Hg).
  apply list_elem_of_filter in Hg as [Hok Hg]. split.
  - rewrite length_collect. by apply ngrams_elem_length in Hg.
  - rewrite chars_collect. apply Is_true_true in Hok.
    rewrite List.forallb_forall in Hok. apply Forall_forall.
    intros c Hc. specialize (Hok c (proj1 (list_elem_of_In _ _) Hc)).
    by apply negb_true_iff, bool_decide_eq_false in Hok.
Qed.

Lemma foldl_incr_shape (P : KmerRecord -> Prop) (ks : list KmerRecord) (m : gmap KmerRecord nat) :
  Forall P ks ->
  (forall k n, m !! k = Some n -> P k /\ 1 <= n) ->
  forall k n, foldl (fun m k => incr k m) m ks !! k = Some n -> P k /\ 1 <= n.
Proof.
  intros Hks. revert m. induction Hks as [|k' ks Hk' Hks IH]; intros m Hm; simpl; [exact Hm|].
  apply IH. intros k n Hk. unfold incr in Hk. destruct (decide (k = k')) as [->|Hne].
  - rewrite lookup_insert_eq in Hk. injection Hk as <-. split; [exact Hk'|].
    destruct (m !! k'); lia.
  - rewrite lookup_insert_ne in Hk by congruence. by apply Hm.
Qed.

Lemma add_partition_kmers k s segs segs' idx p :
  add_partition k s segs idx p = Ok segs' -> kmers_inv k segs -> kmers_inv k segs'.
Proof.
  unfold add_partition.
  destruct (get_sequence_on_search_windows p s) as [[f r]|rr];
    [rewrite bind_Ok|rewrite bind_Panic; discriminate].
  intros [= <-] Hinv i seg kr n Hi Hk. destruct (decide (i = idx)) as [->|Hne].
  - rewrite lookup_insert_eq in Hi. injection Hi as <-. simpl in Hk.
    pose (P := fun kr : KmerRecord =>
      String.length (word kr) = k /\
      (direction kr = SEQ_DIR_FWD \/ direction kr = SEQ_DIR_REV) /\
      Forall (fun c => c ∉ excluded_chars) (chars (word kr))).
    enough (P kr /\ 1 <= n) by (unfold P in *; tauto).
    revert Hk. apply foldl_incr_shape.
    + apply Forall_forall. intros kr' Hkr'. apply elem_of_app in Hkr'.
      rewrite !to_records_dir_elem in Hkr'.
      destruct Hkr' as [[Hd Hw]|[Hd Hw]]; apply find_kmers_elem_shape in Hw;
        unfold P; tauto.
    + intros kr' n' Hkr'. destruct (segs !! idx) as [seg0|] eqn:E; simpl in Hkr'.
      * destruct (Hinv idx seg0 kr' n' E Hkr'). unfold P. tauto.
      * by rewrite lookup_empty in Hkr'.
  - rewrite lookup_insert_ne in Hi by congruence. by apply (Hinv i seg).
Qed.

Lemma fold_add_record_kmers dbg w k s recs segs segs' :
  fold_o (add_record dbg w k s) recs segs = Ok segs' -> kmers_inv k segs -> kmers_inv k segs'.
Proof.
  revert segs. induction recs as [|r rs IH]; intros segs H; cbn [fold_o] in H.
  - by injection H as <-.
  - apply bind_Ok_inv in H as (segs1 & H1 & H2). intros Hinv. apply (IH _ H2).
    unfold add_record in H1. apply bind_Ok_inv in H1 as (ps & _ & H1).
    apply bind_Ok_inv in H1 as (_ & _ & H1).
    revert H1 Hinv. generalize 0 as idx. revert segs.
    induction ps as [|p ps IHp]; intros segs idx H1 Hinv; cbn [add_partitions] in H1.
    + by injection H1 as <-.
    + apply bind_Ok_inv in H1 as (segs2 & H2' & H3).
      apply (IHp _ _ H3). exact (add_partition_kmers _ _ _ _ _ _ H2' Hinv).
Qed.

(** X10: every k-mer stored in a segment by [get_segments] has length [kmer_size], a forward or reverse direction, no excluded character, and a count of at least 1. *)
Theorem get_segments_kmers_shape (log_debug_enabled : bool) (records : list SequenceRecord)
    (ovlp_windows_size kmer_size search_windows_size : nat) (segments : gmap nat Segment)
    (i : nat) (segment : Segment) (k : KmerRecord) (n : nat) :
  get_segments log_debug_enabled records ovlp_windows_size kmer_size search_windows_size
    = Ok segments ->
  segments !! i = Some segment ->
  kmers segment !! k = Some n ->
  String.length (word k) = kmer_size /\
  (direction k = SEQ_DIR_FWD \/ direction k = SEQ_DIR_REV) /\
  Forall (fun c => c ∉ excluded_chars) (chars (word k)) /\
  1 <= n.
Proof.
  unfold get_segments. case_bool_decide; [discriminate|]. intros Hf Hi Hk.
  apply (fold_add_record_kmers _ _ _ _ _ _ _ Hf) with (i := i) (seg := segment); [|exact Hi|exact Hk].
  intros i' seg' k' n' Hs. by rewrite lookup_empty in Hs.
Qed.

Lemma get_segments_kmers_shape_witness :
  String.length (word {| word := "AAC"; direction := 0 |}) = 3 /\
  (direction {| word := "AAC"; direction := 0 |} = SEQ_DIR_FWD \/
   direction {| word := "AAC"; direction := 0 |} = SEQ_DIR_REV) /\
  Forall (fun c => c ∉ excluded_chars) (chars (word {| word := "AAC"; direction := 0 |})) /\
  1 <= 2.
Proof.
  apply (get_segments_kmers_shape true fixture_records 5 3 5 fixture_segments_built 0 fixture_segment0).
  - vm_compute. reflexivity.
  - vm_compute. reflexivity.
  - vm_compute. reflexivity.
Defined.


(** ** The inverted map *)

Lemma look_insert_inner (M : gmap string (gmap nat nat)) (wk w : string) (i j : nat) (f : nat) :
  look (<[wk := <[i := f]> (default ∅ (M !! wk))]> M) w j
  = if bool_decide (w = wk /\ j = i) then Some f else look M w j.
Proof.
  unfold look. destruct (decide (w = wk)) as [->|Hw].
  - rewrite lookup_insert_eq. simpl. destruct (decide (j = i)) as [->|Hj].
    + rewrite lookup_insert_eq, bool_decide_true by tauto. reflexivity.
    + rewrite lookup_insert_ne by congruence. rewrite bool_decide_false by tauto.
      destruct (M !! wk); simpl; [reflexivity|by rewrite lookup_empty].
  - rewrite lookup_insert_ne by congruence. rewrite bool_decide_false by tauto. reflexivity.
Qed.

Lemma mapping_inner_fold (i : nat) (L : list (KmerRecord * nat)) (M : gmap string (gmap nat nat)) :
  let M' := foldl
         (fun mapping '(kmer, freq) =>
            <[word kmer := <[i := freq]> (default ∅ (mapping !! word kmer))]> mapping)
         M L in
  (forall w j f, look M' w j = Some f ->
     look M w j = Some f \/ (j = i /\ exists k, (k, f) ∈ L /\ word k = w)) /\
  (forall w j, is_Some (look M w j) -> is_Some (look M' w j)) /\
  (forall k f, (k, f) ∈ L -> is_Some (look M' (word k) i)) /\
  (nonempty_inner M -> nonempty_inner M').
Proof.
  revert M. induction L as [|[k0 f0] L IH]; intros M; simpl.
  - split; [auto|]. split; [auto|]. split; [|auto].
    intros k f Hk. by apply elem_of_nil in Hk.
  - set (M1 := <[word k0 := <[i := f0]> (default ∅ (M !! word k0))]> M).
    destruct (IH M1) as (Ha & Hb & Hc & Hd). split; [|split; [|split]].
    + intros w j f Hf. destruct (Ha w j f Hf) as [H|(-> & k & Hk & Hw)].
      * unfold M1 in H. rewrite look_insert_inner in H. case_bool_decide as Hb'.
        -- destruct Hb' as [-> ->]. injection H as ->. right. split; [done|].
           exists k0. split; [left|]; done.
        -- left. exact H.
      * right. split; [done|]. exists k. split; [by right|done].
    + intros w j Hs. apply Hb. unfold M1. rewrite look_insert_inner.
      case_bool_decide; [eauto|exact Hs].
    + intros k f Hk. apply elem_of_cons in Hk as [[= -> ->]|Hk].
      * apply Hb. unfold M1. rewrite look_insert_inner, bool_decide_true by tauto. eauto.
      * by apply (Hc k f).
    + intros Hne. apply Hd. intros w m Hm. unfold M1 in Hm.
      destruct (decide (w = word k0)) as [->|Hw].
      * rewrite lookup_insert_eq in Hm. injection Hm as <-. apply insert_non_empty.
      * rewrite lookup_insert_ne in Hm by congruence. by apply (Hne w).
Qed.

Lemma mapping_outer_fold (L : list (nat * Segment)) (M : gmap string (gmap nat nat)) :
  let M' := foldl
    (fun mapping '(i, segment) =>
       foldl
         (fun mapping '(kmer, freq) =>
            <[word kmer := <[i := freq]> (default ∅ (mapping !! word kmer))]> mapping)
         mapping (map_to_list (kmers segment)))
    M L in
  (forall w j f, look M' w j = Some f ->
     look M w j = Some f \/
     exists seg k, (j, seg) ∈ L /\ kmers seg !! k = Some f /\ word k = w) /\
  (forall w j, is_Some (look M w j) -> is_Some (look M' w j)) /\
  (forall j seg k, (j, seg) ∈ L -> is_Some (kmers seg !! k) -> is_Some (look M' (word k) j)) /\
  (nonempty_inner M -> nonempty_inner M').
Proof.
  revert M. induction L as [|[i seg0] L IH]; intros M; simpl.
  - split; [auto|]. split; [auto|]. split; [|auto].
    intros j seg k Hj. by apply elem_of_nil in Hj.
  - destruct (mapping_inner_fold i (map_to_list (kmers seg0)) M) as (Ia & Ib & Ic & Id).
    match goal with |- context [foldl _ ?M1 L] => set (M2 := M1) in * end.
    destruct (IH M2) as (Ha & Hb & Hc & Hd). split; [|split; [|split]].
    + intros w j f Hf. destruct (Ha w j f Hf) as [H|(seg & k & Hj & Hk & Hw)].
      * destruct (Ia w j f H) as [H'|(-> & k & Hk & Hw)]; [by left|].
        right. exists seg0, k. split; [left|]. split; [|exact Hw].
        by apply elem_of_map_to_list.
      * right. exists seg, k. split; [by right|]. auto.
    + intros w j Hs. apply Hb, Ib, Hs.
    + intros j seg k Hj [f Hk]. apply elem_of_cons in Hj as [[= -> ->]|Hj].
      * apply Hb. apply (Ic k f). by apply elem_of_map_to_list.
      * apply (Hc j seg k Hj). eauto.
    + intros Hne. apply Hd, Id, Hne.
Qed.

(** X11: [make_kmer_segments_mapping] maps word [w] to segment key [i] exactly when segment [i] stores a k-mer with word [w]; when every stored count fits in [u32] (the source stores [*freq as u32]), the value is that k-mer's count in the segment; no inner map is empty. *)
Theorem make_kmer_segments_mapping_spec (segments : gmap nat Segment) :
  (forall i segment k f, segments !! i = Some segment -> kmers segment !! k = Some f ->
     (Z.of_nat f < 2 ^ 32)%Z) ->
  let mapping := make_kmer_segments_mapping segments in
  (forall w i, (exists m f, mapping !! w = Some m /\ m !! i = Some f) <->
     exists segment k, segments !! i = Some segment /\ word k = w /\ is_Some (kmers segment !! k)) /\
  (forall w i m f, mapping !! w = Some m -> m !! i = Some f ->
     exists segment k, segments !! i = Some segment /\ word k = w /\ kmers segment !! k = Some f) /\
  (forall w m, mapping !! w = Some m -> m <> ∅).
Proof.
  intros _ mapping.
  destruct (mapping_outer_fold (map_to_list segments) ∅) as (Ha & _ & Hc & Hd).
  fold (make_kmer_segments_mapping segments) in Ha, Hc, Hd. fold mapping in Ha, Hc, Hd.
  assert (Hval : forall w i m f, mapping !! w = Some m -> m !! i = Some f ->
     exists segment k, segments !! i = Some segment /\ word k = w /\ kmers segment !! k = Some f).
  { intros w i m f Hm Hf.
    destruct (Ha w i f) as [H|(seg & k & Hj & Hk & Hw)].
    - unfold look. by rewrite Hm.
    - unfold look in H. by rewrite lookup_empty in H.
    - exists seg, k. apply elem_of_map_to_list in Hj. auto. }
  split; [|split; [exact Hval|]].
  - intros w i. split.
    + intros (m & f & Hm & Hf). destruct (Hval w i m f Hm Hf) as (seg & k & ? & ? & ?).
      exists seg, k. eauto.
    + intros (seg & k & Hs & <- & Hk).
      destruct (Hc i seg k) as [f Hf]; [by apply elem_of_map_to_list|exact Hk|].
      unfold look in Hf. destruct (mapping !! word k) as [m|]; [|discriminate].
      eauto.
  - apply Hd. intros w m Hm. by rewrite lookup_empty in Hm.
Qed.

Lemma make_kmer_segments_mapping_spec_witness :
  let mapping := make_kmer_segments_mapping fixture_segments in
  (forall w i, (exists m f, mapping !! w = Some m /\ m !! i = Some f) <->
     exists segment k, fixture_segments !! i = Some segment /\ word k = w /\
                       is_Some (kmers segment !! k)) /\
  (forall w i m f, mapping !! w = Some m -> m !! i = Some f ->
     exists segment k, fixture_segments !! i = Some segment /\ word k = w /\
                       kmers segment !! k = Some f) /\
  (forall w m, mapping !! w = Some m -> m <> ∅).
Proof.
  apply make_kmer_segments_mapping_spec.
  intros i seg k f Hi Hk.
  assert (Hall : map_Forall (fun _ seg => map_Forall (fun _ f => (Z.of_nat f < 2 ^ 32)%Z) (kmers seg))
                   fixture_segments)
    by (apply (bool_decide_unpack _); vm_compute; exact I).
  exact (map_Forall_lookup_1 _ _ _ _ (map_Forall_lookup_1 _ _ _ _ Hall Hi) Hk).
Defined.


(** ** One round of [find_most_freq_kmer] *)

Lemma max_by_from_elem {A} (cmp : A -> A -> outcome comparison) (acc : A) (l : list A) (x : A) :
  max_by_from cmp acc l = Ok x -> x = acc \/ x ∈ l.
Proof.
  revert acc. induction l as [|y ys IH]; intros acc H; cbn [max_by_from] in H.
  - injection H as <-. by left.
  - apply bind_Ok_inv in H as (c & _ & H). apply IH in H as [->|H].
    + destruct c; [right; left|right; left|left; reflexivity].
    + right. by right.
Qed.

Lemma max_by_elem {A} (cmp : A -> A -> outcome comparison) (l : list A) (x : A) :
  max_by cmp l = Ok (Some x) -> x ∈ l.
Proof.
  destruct l as [|y ys]; cbn [max_by]; [discriminate|].
  intros H. apply bind_Ok_inv in H as (m & Hm & [= <-]).
  apply max_by_from_elem in Hm as [->|Hm]; [left|by right].
Qed.

Lemma scan_fold_kmer_map (segment : Segment) (L : list (KmerRecord * nat))
    (km : gmap string KmerRecord) (kc : gmap string nat) (tot : gmap KmerRecord nat) :
  (forall kr c, (kr, c) ∈ L -> kmers segment !! kr = Some c) ->
  (forall w kr, km !! w = Some kr -> word kr = w /\ is_Some (kmers segment !! kr)) ->
  forall w kr,
  (foldl
     (fun '(kmer_map, kmer_counts, totals) '(kmer_record, counts) =>
        (match kmer_map !! word kmer_record with
         | Some _ => kmer_map
         | None => <[word kmer_record := kmer_record]> kmer_map
         end,
         <[word kmer_record := default 0 (kmer_counts !! word kmer_record) + counts]>
           kmer_counts,
         <[kmer_record := default 0 (totals !! kmer_record) + counts]> totals))
     ((km : gmap string KmerRecord), (kc : gmap string nat), tot) L).1.1 !! w = Some kr ->
  word kr = w /\ is_Some (kmers segment !! kr).
Proof.
  revert km kc tot. induction L as [|[kr0 c0] L IH]; intros km kc tot HL Hkm; simpl; [exact Hkm|].
  apply IH.
  - intros kr c H. apply HL. by right.
  - intros w kr H. destruct (km !! word kr0) eqn:E; [by apply Hkm|].
    destruct (decide (w = word kr0)) as [->|Hne].
    + rewrite lookup_insert_eq in H. injection H as <-. split; [reflexivity|].
      exists c0. apply HL. by left.
    + rewrite lookup_insert_ne in H by congruence. by apply Hkm.
Qed.

Lemma scan_segment_ok (skipped : gset nat) (t t' : gmap KmerRecord nat)
    (c c' : gmap nat KmerFrequency) (segment : Segment) :
  scan_segment skipped (t, c) segment = Ok (t', c') ->
  (index segment ∈ skipped -> t' = t /\ c' = c) /\
  (index segment ∉ skipped ->
     exists cf, c' = <[index segment := cf]> c /\ is_Some (kmers segment !! kmer cf)).
Proof.
  unfold scan_segment. case_bool_decide as Hsk.
  - intros [= -> ->]. split; [auto|tauto].
  - pose proof (scan_fold_kmer_map segment (map_to_list (kmers segment)) ∅ ∅ t) as Hkm.
    destruct (foldl _ _ _) as [[km kc] tot] eqn:E. simpl in Hkm.
    intros H. split; [tauto|intros _].
    apply bind_Ok_inv in H as (best & _ & H).
    apply bind_Ok_inv in H as ([w freq] & _ & H).
    apply bind_Ok_inv in H as (winner_kmer & Hw & [= <- <-]).
    unfold unwrap in Hw. destruct (km !! w) as [kr|] eqn:Ekm; [injection Hw as <-|discriminate].
    eexists. split; [reflexivity|]. simpl.
    assert (Hempty : forall w kr, (∅ : gmap string KmerRecord) !! w = Some kr ->
                       word kr = w /\ is_Some (kmers segment !! kr))
      by (intros w' kr' H'; by rewrite lookup_empty in H').
    destruct (Hkm (fun kr c H => proj1 (elem_of_map_to_list _ _ _) H) Hempty w kr Ekm)
      as [<- Hs].
    by destruct kr.
Qed.

Lemma fold_scan (skipped : gset nat) (L : list Segment) :
  forall t c t' c',
  fold_o (scan_segment skipped) L (t, c) = Ok (t', c') ->
  (forall j cf, c' !! j = Some cf ->
     c !! j = Some cf \/
     exists segment, segment ∈ L /\ index segment = j /\ (j ∉ skipped) /\
                     is_Some (kmers segment !! kmer cf)) /\
  (forall segment, segment ∈ L -> index segment ∉ skipped -> is_Some (c' !! index segment)) /\
  (forall j, is_Some (c !! j) -> is_Some (c' !! j)).
Proof.
  induction L as [|seg L IH]; intros t c t' c' H; cbn [fold_o] in H.
  - injection H as <- <-. split; [auto|]. split; [|auto].
    intros seg Hs. by apply elem_of_nil in Hs.
  - apply bind_Ok_inv in H as ([t1 c1] & H1 & H2).
    destruct (IH _ _ _ _ H2) as (Ha & Hb & Hc).
    destruct (scan_segment_ok _ _ _ _ _ _ H1) as [Hs1 Hn1].
    destruct (decide (index seg ∈ skipped)) as [Hin|Hnin].
    + destruct (Hs1 Hin) as [-> ->]. split; [|split; [|exact Hc]].
      * intros j cf Hj. destruct (Ha j cf Hj) as [H|(s & Hs & ?)]; [by left|].
        right. exists s. split; [by right|done].
      * intros s Hs Hns. apply elem_of_cons in Hs as [->|Hs]; [contradiction|].
        by apply Hb.
    + destruct (Hn1 Hnin) as (cf & -> & Hcf). split; [|split].
      * intros j cf' Hj. destruct (Ha j cf' Hj) as [H|(s & Hs & ?)].
        -- destruct (decide (j = index seg)) as [->|Hne].
           ++ rewrite lookup_insert_eq in H. injection H as <-. right.
              exists seg. split; [left|]. auto.
           ++ rewrite lookup_insert_ne in H by congruence. by left.
        -- right. exists s. split; [by right|done].
      * intros s Hs Hns. apply elem_of_cons in Hs as [->|Hs].
        -- apply Hc. rewrite lookup_insert_eq. eauto.
        -- by apply Hb.
      * intros j Hj. apply Hc. destruct (decide (j = index seg)) as [->|Hne].
        -- rewrite lookup_insert_eq. eauto.
        -- by rewrite lookup_insert_ne by congruence.
Qed.

Lemma scan_segment_skipped (skipped : gset nat) st (segment : Segment) :
  index segment ∈ skipped -> scan_segment skipped st segment = Ok st.
Proof. intros H. destruct st. unfold scan_segment. by rewrite bool_decide_true. Qed.

Lemma fold_scan_all_skipped (skipped : gset nat) (L : list Segment) st :
  (forall segment, segment ∈ L -> index segment ∈ skipped) ->
  fold_o (scan_segment skipped) L st = Ok st.
Proof.
  revert st. induction L as [|seg L IH]; intros [t c] H; cbn [fold_o]; [reflexivity|].
  rewrite scan_segment_skipped by (apply H; left).
  rewrite bind_Ok. apply IH. intros s Hs. apply H. by right.
Qed.

Lemma elem_of_segments_snd (segments : gmap nat Segment) (segment : Segment) :
  segment ∈ (map_to_list segments).*2 <-> exists i, segments !! i = Some segment.
Proof.
  rewrite list_elem_of_fmap. split.
  - intros ([i s] & -> & H). apply elem_of_map_to_list in H. eauto.
  - intros [i H]. exists (i, segment). split; [done|]. by apply elem_of_map_to_list.
Qed.

(** X12: [find_most_freq_kmer] returns no winner exactly when every segment's index is already skipped. *)
Theorem find_most_freq_kmer_none_iff (segments : gmap nat Segment)
    (kmer_segments_mapping : gmap string (gmap nat nat)) (skipped_segment_indexes : gset nat) :
  find_most_freq_kmer segments kmer_segments_mapping skipped_segment_indexes = Ok None <->
  forall i segment, segments !! i = Some segment -> index segment ∈ skipped_segment_indexes.
Proof.
  unfold find_most_freq_kmer. split.
  - intros H. apply bind_Ok_inv in H as ([t c] & Hf & H).
    destruct (fold_scan _ _ _ _ _ _ Hf) as (_ & Hb & _).
    case_bool_decide as Hz.
    + apply map_size_empty_iff in Hz. subst c.
      intros i seg Hi. destruct (decide (index seg ∈ skipped_segment_indexes)) as [|Hn]; [done|].
      exfalso. destruct (Hb seg) as [x Hx]; [apply elem_of_segments_snd; eauto|exact Hn|].
      by rewrite lookup_empty in Hx.
    + exfalso. apply bind_Ok_inv in H as (best & _ & H).
      apply bind_Ok_inv in H as ([j winner] & _ & H).
      apply bind_Ok_inv in H as (m & _ & H). discriminate.
  - intros Hall. rewrite fold_scan_all_skipped.
    + rewrite bind_Ok, bool_decide_true by apply map_size_empty. reflexivity.
    + intros seg Hs. apply elem_of_segments_snd in Hs as [i Hi]. by apply (Hall i).
Qed.

Lemma mapping_keys (segments : gmap nat Segment) (w : string) (m : gmap nat nat) (i : nat) :
  make_kmer_segments_mapping segments !! w = Some m -> i ∈ dom m ->
  exists segment k, segments !! i = Some segment /\ word k = w /\ is_Some (kmers segment !! k).
Proof.
  intros Hm Hi. apply elem_of_dom in Hi as [f Hf].
  destruct (mapping_outer_fold (map_to_list segments) ∅) as (Ha & _ & _ & _).
  fold (make_kmer_segments_mapping segments) in Ha.
  destruct (Ha w i f) as [H|(seg & k & Hj & Hk & Hw)].
  - unfold look. by rewrite Hm.
  - unfold look in H. by rewrite lookup_empty in H.
  - exists seg, k. apply elem_of_map_to_list in Hj. eauto.
Qed.

Lemma mapping_covers (segments : gmap nat Segment) (i : nat) (segment : Segment) (k : KmerRecord) :
  segments !! i = Some segment -> is_Some (kmers segment !! k) ->
  exists m, make_kmer_segments_mapping segments !! word k = Some m /\ i ∈ dom m.
Proof.
  intros Hs Hk.
  destruct (mapping_outer_fold (map_to_list segments) ∅) as (_ & _ & Hc & _).
  fold (make_kmer_segments_mapping segments) in Hc.
  destruct (Hc i segment k) as [f Hf]; [by apply elem_of_map_to_list|exact Hk|].
  unfold look in Hf. destruct (make_kmer_segments_mapping segments !! word k) as [m|]; [|discriminate].
  exists m. split; [done|]. apply elem_of_dom. eauto.
Qed.

Lemma find_most_freq_kmer_cover_aux (segments : gmap nat Segment) (skipped_segment_indexes : gset nat)
    (winner : KmerFrequency) (skipped : gset nat) :
  find_most_freq_kmer segments (make_kmer_segments_mapping segments) skipped_segment_indexes
    = Ok (Some (winner, skipped)) ->
  (forall i, i ∈ skipped -> is_Some (segments !! i)) /\
  (exists i segment, segments !! i = Some segment /\
     (index segment ∉ skipped_segment_indexes) /\ is_Some (kmers segment !! kmer winner) /\
     i ∈ skipped) /\
  (forall i segment k, segments !! i = Some segment -> is_Some (kmers segment !! k) ->
     word k = word (kmer winner) \/ word k = reverse_complement (word (kmer winner)) ->
     i ∈ skipped).
Proof.
  unfold find_most_freq_kmer. intros H.
  apply bind_Ok_inv in H as ([t c] & Hf & H).
  destruct (fold_scan _ _ _ _ _ _ Hf) as (Ha & _ & _).
  case_bool_decide; [discriminate|].
  apply bind_Ok_inv in H as (best & Hbest & H).
  apply bind_Ok_inv in H as ([j winner'] & Hb & H).
  unfold unwrap in Hb. destruct best as [bj|]; [injection Hb as ->|discriminate].
  apply max_by_elem, elem_of_map_to_list in Hbest.
  apply bind_Ok_inv in H as (m & Hm & [= <- <-]).
  unfold unwrap in Hm.
  destruct (make_kmer_segments_mapping segments !! word (kmer winner')) as [m'|] eqn:Em;
    [injection Hm as ->|discriminate].
  set (mrev := make_kmer_segments_mapping segments !! reverse_complement (word (kmer winner'))).
  assert (Hsub : forall i, i ∈ (match mrev with Some rs => dom m ∪ dom rs | None => dom m end : gset nat)
                 <-> i ∈ dom m \/ exists rs, mrev = Some rs /\ i ∈ dom rs).
  { intros i. destruct mrev as [rs|]; [rewrite elem_of_union|]; split.
    - intros [?|?]; [by left|right; eauto].
    - intros [?|(rs' & [= <-] & ?)]; [by left|by right].
    - intros ?; by left.
    - intros [?|(rs' & ? & _)]; [done|discriminate]. }
  split; [|split].
  - intros i Hi. apply Hsub in Hi as [Hi|(rs & Hrs & Hi)].
    + destruct (mapping_keys _ _ _ _ Em Hi) as (seg & k & Hs & _). eauto.
    + destruct (mapping_keys _ _ _ _ Hrs Hi) as (seg & k & Hs & _). eauto.
  - destruct (Ha j winner' Hbest) as [Hc0|(seg & Hseg & Hidx & Hnsk & Hk)];
      [by rewrite lookup_empty in Hc0|].
    apply elem_of_segments_snd in Hseg as [i Hi].
    exists i, seg. split; [exact Hi|]. split; [by rewrite Hidx|]. split; [exact Hk|].
    apply Hsub. left.
    destruct (mapping_covers _ _ _ _ Hi Hk) as (m0 & Hm0 & Him0).
    rewrite Em in Hm0. by injection Hm0 as ->.
  - intros i seg k Hi Hk Hw. apply Hsub.
    destruct (mapping_covers _ _ _ _ Hi Hk) as (m0 & Hm0 & Him0).
    destruct Hw as [Hw|Hw]; rewrite Hw in Hm0.
    + left. rewrite Em in Hm0. by injection Hm0 as ->.
    + right. exists m0. split; [exact Hm0|exact Him0].
Qed.

(** X13: a winner of [find_most_freq_kmer] (with the mapping built from the segments) is stored in some segment not yet skipped; the returned skipped set holds only present keys, contains that segment, and contains every segment storing the winner's word or its reverse complement. *)
Theorem find_most_freq_kmer_cover (segments : gmap nat Segment) (skipped_segment_indexes : gset nat)
    (winner : KmerFrequency) (skipped : gset nat) :
  find_most_freq_kmer segments (make_kmer_segments_mapping segments) skipped_segment_indexes
    = Ok (Some (winner, skipped)) ->
  (forall i, i ∈ skipped -> is_Some (segments !! i)) /\
  (exists i segment, segments !! i = Some segment /\
     (index segment ∉ skipped_segment_indexes) /\ is_Some (kmers segment !! kmer winner) /\
     i ∈ skipped) /\
  (forall i segment k, segments !! i = Some segment -> is_Some (kmers segment !! k) ->
     word k = word (kmer winner) \/ word k = reverse_complement (word (kmer winner)) ->
     i ∈ skipped).
Proof. apply find_most_freq_kmer_cover_aux. Qed.

Lemma find_most_freq_kmer_cover_witness :
  (forall i, i ∈ ({[0; 1]} : gset nat) -> is_Some (fixture_segments !! i)) /\
  (exists i segment, fixture_segments !! i = Some segment /\
     (index segment ∉ (∅ : gset nat)) /\ is_Some (kmers segment !! fwd "AGGT") /\
     i ∈ ({[0; 1]} : gset nat)) /\
  (forall i segment k, fixture_segments !! i = Some segment -> is_Some (kmers segment !! k) ->
     word k = "AGGT" \/ word k = reverse_complement "AGGT" ->
     i ∈ ({[0; 1]} : gset nat)).
Proof.
  apply (find_most_freq_kmer_cover fixture_segments ∅ {| kmer := fwd "AGGT"; frequency := 2 |}).
  vm_compute. reflexivity.
Defined.


(** ** The greedy loop *)

Section GreedyInvariants.
Variable find : gset nat -> outcome (option (KmerFrequency * gset nat)).
Variable total_segments max_mismatch : nat.

Lemma greedy_rounds_length (fuel : nat) (s : gset nat) (acc l : list KmerFrequency) :
  greedy_rounds find total_segments max_mismatch fuel s acc = Ok l ->
  List.length l <= List.length acc + fuel.
Proof.
  revert s acc. induction fuel as [|fuel IH]; intros s acc H; cbn [greedy_rounds] in H.
  - injection H as <-. lia.
  - apply bind_Ok_inv in H as ([[w s']|] & _ & H); [|injection H as <-; lia].
    apply bind_Ok_inv in H as (rem & _ & H).
    case_bool_decide; [injection H as <-; lia|].
    apply IH in H. rewrite length_app in H. simpl in H. lia.
Qed.

Lemma greedy_rounds_inv (Inv : gset nat -> list KmerFrequency -> Prop) :
  (forall s acc w s', Inv s acc -> find s = Ok (Some (w, s')) -> Inv (s ∪ s') (acc ++ [w])%list) ->
  forall fuel s acc l, Inv s acc ->
  greedy_rounds find total_segments max_mismatch fuel s acc = Ok l -> exists s', Inv s' l.
Proof.
  intros Hstep fuel. induction fuel as [|fuel IH]; intros s acc l Hinv H; cbn [greedy_rounds] in H.
  - injection H as <-. eauto.
  - apply bind_Ok_inv in H as ([[w s']|] & Hf & H); [|injection H as <-; eauto].
    apply bind_Ok_inv in H as (rem & _ & H).
    case_bool_decide; [injection H as <-; eauto|].
    eapply IH; [|exact H]. by apply Hstep.
Qed.

Lemma greedy_rounds_panic (D : gset nat) :
  size D <= total_segments ->
  (forall s w s', s ⊆ D -> find s = Ok (Some (w, s')) -> s' ⊆ D) ->
  forall fuel s acc r, s ⊆ D ->
  greedy_rounds find total_segments max_mismatch fuel s acc = Panic r ->
  exists s', find s' = Panic r.
Proof.
  intros HD Hs fuel. induction fuel as [|fuel IH]; intros s acc r Hsub H; cbn [greedy_rounds] in H;
    [discriminate|].
  destruct (find s) as [[[w s']|]|r'] eqn:Hf; [rewrite bind_Ok in H|discriminate|].
  2:{ rewrite bind_Panic in H. injection H as ->. eauto. }
  assert (Hu : s ∪ s' ⊆ D) by (apply union_least; [exact Hsub|by eapply Hs]).
  unfold usize_sub in H. rewrite bool_decide_false in H.
  2:{ apply subseteq_size in Hu. lia. }
  rewrite bind_Ok in H. case_bool_decide; [discriminate|]. by eapply IH.
Qed.

End GreedyInvariants.

Lemma fold_o_panic_inv {A B} (f : B -> A -> outcome B) (l : list A) (b : B) (r : panic_reason) :
  fold_o f l b = Panic r -> exists b' x, f b' x = Panic r.
Proof.
  revert b. induction l as [|x xs IH]; intros b H; cbn [fold_o] in H; [discriminate|].
  destruct (f b x) as [b'|r'] eqn:E; [rewrite bind_Ok in H; eauto|].
  rewrite bind_Panic in H. injection H as ->. eauto.
Qed.

Lemma max_by_panic_inv {A} (cmp : A -> A -> outcome comparison) (l : list A) (r : panic_reason) :
  max_by cmp l = Panic r -> exists a b, cmp a b = Panic r.
Proof.
  destruct l as [|x xs]; cbn [max_by]; [discriminate|].
  destruct (max_by_from cmp x xs) as [m|r'] eqn:E; [rewrite bind_Ok; discriminate|].
  rewrite bind_Panic. intros [= ->]. revert x E.
  induction xs as [|y ys IH]; intros x E; cbn [max_by_from] in E; [discriminate|].
  destruct (cmp x y) as [c|r''] eqn:Ec; [rewrite bind_Ok in E; eauto|].
  rewrite bind_Panic in E. injection E as ->. eauto.
Qed.

Lemma unwrap_panic {A} (o : option A) (r : panic_reason) : unwrap o = Panic r -> r = PUnwrapNone.
Proof. destruct o; simpl; congruence. Qed.

Lemma find_most_freq_kmer_panic_reason segments mapping skipped r :
  find_most_freq_kmer segments mapping skipped = Panic r -> r = PUnwrapNone.
Proof.
  unfold find_most_freq_kmer.
  destruct (fold_o _ _ _) as [[t c]|r'] eqn:E.
  2:{ rewrite bind_Panic. intros [= ->]. apply fold_o_panic_inv in E as (b & x & Hx).
      by eapply scan_segment_panic_reason. }
  rewrite bind_Ok. case_bool_decide; [discriminate|].
  destruct (max_by _ _) as [best|r'] eqn:Eb.
  2:{ rewrite bind_Panic. intros [= ->]. apply max_by_panic_inv in Eb as (a & b & Hab).
      destruct (t !! kmer a.2) as [x|]; simpl in Hab; [|congruence].
      destruct (t !! kmer b.2) as [y|]; simpl in Hab; congruence. }
  rewrite bind_Ok. destruct best as [[j w]|]; simpl; [|congruence].
  destruct (mapping !! word (kmer w)); simpl; congruence.
Qed.

(** X14: [get_candidates_kmers] returns at most [MAX_ITERATIONS] k-mers. *)
Theorem get_candidates_kmers_at_most_iterations (segments : gmap nat Segment)
    (candidates : list KmerFrequency) :
  get_candidates_kmers segments = Ok candidates -> List.length candidates <= MAX_ITERATIONS.
Proof.
  unfold get_candidates_kmers, get_candidates_kmers_tol. intros H.
  apply greedy_rounds_length in H. simpl in H. exact H.
Qed.

Lemma get_candidates_kmers_at_most_iterations_witness :
  List.length [{| kmer := fwd "AGGT"; frequency := 2 |}; {| kmer := fwd "ATGA"; frequency := 2 |}]
  <= MAX_ITERATIONS.
Proof.
  apply (get_candidates_kmers_at_most_iterations fixture_segments). vm_compute. reflexivity.
Defined.

(** X15: when the stored counts sum to less than 2^64 (so no [usize] addition of [find_most_freq_kmer] overflows), [get_candidates_kmers] can only panic on an [unwrap] of [None]; the [usize] subtraction of the loop never underflows. *)
Theorem get_candidates_kmers_panic_reason (segments : gmap nat Segment) (r : panic_reason) :
  (Z.of_nat (kmer_count_sum segments) < 2 ^ 64)%Z ->
  get_candidates_kmers segments = Panic r -> r = PUnwrapNone.
Proof.
  unfold get_candidates_kmers, get_candidates_kmers_tol. intros _ H.
  apply (greedy_rounds_panic _ _ _ (dom segments)) in H as [s' Hs'].
  - by apply find_most_freq_kmer_panic_reason in Hs'.
  - by rewrite size_dom.
  - intros s w s'' _ Hf. apply find_most_freq_kmer_cover_aux in Hf as (Hd & _ & _).
    intros i Hi. apply elem_of_dom. by apply Hd.
  - apply empty_subseteq.
Qed.

Lemma get_candidates_kmers_panic_reason_witness : PUnwrapNone = PUnwrapNone.
Proof. apply (get_candidates_kmers_panic_reason gap_segments); vm_compute; reflexivity. Defined.

(** X16: when every segment's index equals its key, [get_candidates_kmers] returns no more k-mers than there are segments, with pairwise distinct words. *)
Theorem get_candidates_kmers_distinct (segments : gmap nat Segment)
    (candidates : list KmerFrequency) :
  (forall i segment, segments !! i = Some segment -> index segment = i) ->
  get_candidates_kmers segments = Ok candidates ->
  List.length candidates <= size segments /\
  NoDup (map (fun cf => word (kmer cf)) candidates).
Proof.
  intros Hidx. unfold get_candidates_kmers, get_candidates_kmers_tol. intros H.
  set (Inv := fun (s : gset nat) (acc : list KmerFrequency) =>
    s ⊆ dom segments /\ List.length acc <= size s /\
    NoDup (map (fun cf => word (kmer cf)) acc) /\
    forall cf, cf ∈ acc -> forall i segment k, segments !! i = Some segment ->
      is_Some (kmers segment !! k) -> word k = word (kmer cf) -> i ∈ s).
  assert (Hstep : forall s acc w s', Inv s acc ->
    find_most_freq_kmer segments (make_kmer_segments_mapping segments) s = Ok (Some (w, s')) ->
    Inv (s ∪ s') (acc ++ [w])%list).
  { intros s acc w s' (Hsub & Hlen & Hnd & Hcov) Hf.
    apply find_most_freq_kmer_cover_aux in Hf as (Hd & (i & seg & Hi & Hnsk & Hk & His') & Hc).
    rewrite (Hidx i seg Hi) in Hnsk.
    split; [|split; [|split]].
    + apply union_least; [exact Hsub|]. intros j Hj. apply elem_of_dom. by apply Hd.
    + rewrite length_app. simpl.
      assert (Hlt : size s < size (s ∪ s')).
      { apply subset_size. split; [apply union_subseteq_l|].
        intros Hsub'. apply Hnsk, Hsub', elem_of_union_r, His'. }
      lia.
    + rewrite map_app. apply NoDup_app. split; [exact Hnd|]. split; [|apply NoDup_singleton].
      intros x Hx Hx'. apply list_elem_of_singleton in Hx' as ->.
      apply list_elem_of_fmap in Hx as (cf & Hcf & Hin).
      apply Hnsk. by apply (Hcov cf Hin i seg (kmer w)).
    + intros cf Hcf j seg' k Hj Hk' Hw. apply elem_of_app in Hcf as [Hcf|Hcf].
      * apply elem_of_union_l. by apply (Hcov cf Hcf j seg' k).
      * apply list_elem_of_singleton in Hcf as ->. apply elem_of_union_r.
        apply (Hc j seg' k Hj Hk'). by left. }
  assert (Hinit : Inv ∅ []).
  { split; [apply empty_subseteq|]. split; [simpl; lia|]. split; [constructor|].
    intros cf Hcf. by apply elem_of_nil in Hcf. }
  destruct (greedy_rounds_inv _ _ _ Inv Hstep MAX_ITERATIONS ∅ [] candidates Hinit H)
    as (s & Hsub & Hlen & Hnd & _).
  split; [|exact Hnd]. apply subseteq_size in Hsub. rewrite size_dom in Hsub. lia.
Qed.

Lemma get_candidates_kmers_distinct_witness :
  List.length [{| kmer := fwd "AGGT"; frequency := 2 |}; {| kmer := fwd "ATGA"; frequency := 2 |}]
    <= size fixture_segments /\
  NoDup (map (fun cf => word (kmer cf))
           [{| kmer := fwd "AGGT"; frequency := 2 |}; {| kmer := fwd "ATGA"; frequency := 2 |}]).
Proof.
  apply (get_candidates_kmers_distinct fixture_segments).
  - intros i seg Hi.
    assert (Hall : map_Forall (fun i seg => index seg = i) fixture_segments)
      by (apply (bool_decide_unpack _); vm_compute; exact I).
    exact (map_Forall_lookup_1 _ _ _ _ Hall Hi).
  - vm_compute. reflexivity.
Defined.

(** X17: every k-mer returned by [get_candidates_kmers] is stored in some segment. *)
Theorem get_candidates_kmers_stored (segments : gmap nat Segment)
    (candidates : list KmerFrequency) (cf : KmerFrequency) :
  get_candidates_kmers segments = Ok candidates -> cf ∈ candidates ->
  exists i segment, segments !! i = Some segment /\ is_Some (kmers segment !! kmer cf).
Proof.
  unfold get_candidates_kmers, get_candidates_kmers_tol. intros H.
  set (Inv := fun (s : gset nat) (acc : list KmerFrequency) =>
    forall cf, cf ∈ acc ->
      exists i segment, segments !! i = Some segment /\ is_Some (kmers segment !! kmer cf)).
  assert (Hstep : forall s acc w s', Inv s acc ->
    find_most_freq_kmer segments (make_kmer_segments_mapping segments) s = Ok (Some (w, s')) ->
    Inv (s ∪ s') (acc ++ [w])%list).
  { intros s acc w s' Hacc Hf.
    apply find_most_freq_kmer_cover_aux in Hf as (_ & (i & seg & Hi & _ & Hk & _) & _).
    intros cf' Hcf'. apply elem_of_app in Hcf' as [Hcf'|Hcf']; [by apply Hacc|].
    apply list_elem_of_singleton in Hcf' as ->. eauto. }
  assert (Hinit : Inv ∅ []) by (intros cf' Hcf'; by apply elem_of_nil in Hcf').
  destruct (greedy_rounds_inv _ _ _ Inv Hstep MAX_ITERATIONS ∅ [] candidates Hinit H) as [s Hinv].
  apply Hinv.
Qed.

Lemma get_candidates_kmers_stored_witness :
  exists i segment, fixture_segments !! i = Some segment /\ is_Some (kmers segment !! fwd "AGGT").
Proof.
  apply (get_candidates_kmers_stored fixture_segments
           [{| kmer := fwd "AGGT"; frequency := 2 |}; {| kmer := fwd "ATGA"; frequency := 2 |}]
           {| kmer := fwd "AGGT"; frequency := 2 |}).
  - vm_compute. reflexivity.
  - left.
Defined.


(** ** When a round panics *)

Lemma scan_fold_inv (L : list (KmerRecord * nat))
    (km : gmap string KmerRecord) (kc : gmap string nat) (tot : gmap KmerRecord nat) :
  (forall w, is_Some (km !! w) <-> is_Some (kc !! w)) ->
  (forall w kr, km !! w = Some kr -> is_Some (tot !! kr)) ->
  let '(km', kc', tot') :=
    foldl
      (fun '(kmer_map, kmer_counts, totals) '(kmer_record, counts) =>
         (match kmer_map !! word kmer_record with
          | Some _ => kmer_map
          | None => <[word kmer_record := kmer_record]> kmer_map
          end,
          <[word kmer_record := default 0 (kmer_counts !! word kmer_record) + counts]>
            kmer_counts,
          <[kmer_record := default 0 (totals !! kmer_record) + counts]> totals))
      ((km : gmap string KmerRecord), (kc : gmap string nat), tot) L in
  (forall w, is_Some (km' !! w) <-> is_Some (kc' !! w)) /\
  (forall w kr, km' !! w = Some kr -> is_Some (tot' !! kr)) /\
  (forall k, is_Some (tot !! k) -> is_Some (tot' !! k)) /\
  (forall w, is_Some (kc !! w) -> is_Some (kc' !! w)) /\
  (forall kr c, (kr, c) ∈ L -> is_Some (kc' !! word kr)).
Proof.
  revert km kc tot. induction L as [|[kr0 c0] L IH]; intros km kc tot Hkc Htot; simpl.
  - split; [exact Hkc|]. split; [exact Htot|]. split; [auto|]. split; [auto|].
    intros kr c H. by apply elem_of_nil in H.
  - match goal with |- context [foldl ?F (?a, ?b, ?c) L] =>
      specialize (IH a b c) end.
    destruct (foldl _ _ L) as [[km' kc'] tot'].
    destruct IH as (H1 & H2 & H3 & H4 & H5).
    + intros w. destruct (km !! word kr0) eqn:E.
      * destruct (decide (w = word kr0)) as [->|Hne].
        -- rewrite lookup_insert_eq. split; [eauto|]. intros _. by eexists.
        -- rewrite lookup_insert_ne by congruence. apply Hkc.
      * destruct (decide (w = word kr0)) as [->|Hne].
        -- rewrite !lookup_insert_eq. split; eauto.
        -- rewrite !lookup_insert_ne by congruence. apply Hkc.
    + intros w kr H. destruct (decide (kr = kr0)) as [->|Hne].
      * rewrite lookup_insert_eq. eauto.
      * rewrite lookup_insert_ne by congruence.
        destruct (km !! word kr0) eqn:E; [by apply (Htot w)|].
        destruct (decide (w = word kr0)) as [->|Hw].
        -- rewrite lookup_insert_eq in H. congruence.
        -- rewrite lookup_insert_ne in H by congruence. by apply (Htot w).
    + split; [exact H1|]. split; [exact H2|]. split; [|split].
      * intros k Hk. apply H3. destruct (decide (k = kr0)) as [->|Hne].
        -- rewrite lookup_insert_eq. eauto.
        -- by rewrite lookup_insert_ne by congruence.
      * intros w Hw. apply H4. destruct (decide (w = word kr0)) as [->|Hne].
        -- rewrite lookup_insert_eq. eauto.
        -- by rewrite lookup_insert_ne by congruence.
      * intros kr c Hin. apply elem_of_cons in Hin as [[= -> ->]|Hin]; [|by apply (H5 kr c)].
        apply H4. rewrite lookup_insert_eq. eauto.
Qed.

Lemma max_by_from_total {A} (cmp : A -> A -> outcome comparison) (L : list A) :
  (forall a b, a ∈ L -> b ∈ L -> exists c, cmp a b = Ok c) ->
  forall l acc, acc ∈ L -> (forall x, x ∈ l -> x ∈ L) ->
  exists m, max_by_from cmp acc l = Ok m.
Proof.
  intros Hcmp l. induction l as [|y ys IH]; intros acc Hacc Hl; cbn [max_by_from]; [eauto|].
  destruct (Hcmp acc y Hacc (Hl y ltac:(left))) as [c Hc].
  rewrite Hc, bind_Ok. apply IH.
  - destruct c; [apply Hl; left|apply Hl; left|exact Hacc].
  - intros x Hx. apply Hl. by right.
Qed.

Lemma max_by_total {A} (cmp : A -> A -> outcome comparison) (l : list A) :
  (forall a b, a ∈ l -> b ∈ l -> exists c, cmp a b = Ok c) -> l <> [] ->
  exists m, max_by cmp l = Ok (Some m).
Proof.
  intros Hcmp Hne. destruct l as [|x xs]; [done|]. cbn [max_by].
  destruct (max_by_from_total cmp (x :: xs) Hcmp xs x) as [m Hm].
  - left.
  - intros y Hy. by right.
  - rewrite Hm, bind_Ok. eauto.
Qed.

Lemma scan_segment_cases (skipped : gset nat) (t : gmap KmerRecord nat)
    (c : gmap nat KmerFrequency) (segment : Segment) :
  match scan_segment skipped (t, c) segment with
  | Ok (t', c') =>
      (forall k, is_Some (t !! k) -> is_Some (t' !! k)) /\
      (forall j cf, c' !! j = Some cf -> c !! j = Some cf \/ is_Some (t' !! kmer cf)) /\
      ((index segment ∈ skipped) \/ kmers segment <> ∅)
  | Panic _ => (index segment ∉ skipped) /\ kmers segment = ∅
  end.
Proof.
  unfold scan_segment. case_bool_decide as Hsk.
  { split; [auto|]. split; [auto|]. by left. }
  pose proof (scan_fold_kmer_map segment (map_to_list (kmers segment)) ∅ ∅ t) as Hkm.
  pose proof (scan_fold_inv (map_to_list (kmers segment)) ∅ ∅ t) as Hinv.
  destruct (foldl _ _ _) as [[km kc] tot] eqn:E. simpl in Hkm.
  destruct Hinv as (H1 & H2 & H3 & _ & H5).
  { intros w. rewrite !lookup_empty. split; intros [? ?]; discriminate. }
  { intros w kr H. by rewrite lookup_empty in H. }
  destruct (decide (kmers segment = ∅)) as [Hemp|Hne].
  - assert (Hkc : kc = ∅).
    { apply map_eq. intros w. rewrite lookup_empty.
      destruct (kc !! w) eqn:Ew; [|reflexivity]. exfalso.
      assert (Hs : is_Some (km !! w)) by (apply H1; eauto).
      destruct Hs as [kr Hkr].
      assert (Hempty : forall w kr, (∅ : gmap string KmerRecord) !! w = Some kr ->
                         word kr = w /\ is_Some (kmers segment !! kr))
        by (intros w' kr' H'; by rewrite lookup_empty in H').
      destruct (Hkm (fun kr c H => proj1 (elem_of_map_to_list _ _ _) H) Hempty w kr Hkr)
        as [_ [x Hx]].
      by rewrite Hemp, lookup_empty in Hx. }
    subst kc. rewrite map_to_list_empty. simpl. split; [exact Hsk|exact Hemp].
  - assert (Hkc : map_to_list kc <> []).
    { intros Hnil. apply map_to_list_empty_iff in Hnil. subst kc.
      apply Hne. apply map_eq. intros kr. rewrite lookup_empty.
      destruct (kmers segment !! kr) as [x|] eqn:Ex; [|reflexivity]. exfalso.
      destruct (H5 kr x) as [? Hy]; [by apply elem_of_map_to_list|].
      by rewrite lookup_empty in Hy. }
    destruct (max_by_total (fun a b : string * nat => Ok (Nat.compare a.2 b.2)) (map_to_list kc))
      as [[w freq] Hb]; [eauto|exact Hkc|].
    rewrite Hb, bind_Ok. simpl.
    apply max_by_elem, elem_of_map_to_list in Hb.
    destruct (proj2 (H1 w) (ltac:(eauto) : is_Some (kc !! w))) as [kr Hkr].
    rewrite Hkr. simpl.
    assert (Hempty : forall w kr, (∅ : gmap string KmerRecord) !! w = Some kr ->
                       word kr = w /\ is_Some (kmers segment !! kr))
      by (intros w' kr' H'; by rewrite lookup_empty in H').
    destruct (Hkm (fun kr c H => proj1 (elem_of_map_to_list _ _ _) H) Hempty w kr Hkr) as [Hw _].
    split; [exact H3|]. split; [|by right].
    intros j cf Hj. destruct (decide (j = index segment)) as [->|Hj'].
    + rewrite lookup_insert_eq in Hj. injection Hj as <-. right. simpl.
      rewrite <- Hw. destruct kr as [kw kd]. simpl. exact (H2 w _ Hkr).
    + rewrite lookup_insert_ne in Hj by congruence. by left.
Qed.

Lemma fold_scan_cases (skipped : gset nat) (L : list Segment) :
  forall t c,
  (forall j cf, c !! j = Some cf -> is_Some (t !! kmer cf)) ->
  match fold_o (scan_segment skipped) L (t, c) with
  | Ok (t', c') => forall j cf, c' !! j = Some cf -> is_Some (t' !! kmer cf)
  | Panic _ => exists segment, segment ∈ L /\ (index segment ∉ skipped) /\ kmers segment = ∅
  end /\
  ((exists segment, segment ∈ L /\ (index segment ∉ skipped) /\ kmers segment = ∅) ->
   exists r, fold_o (scan_segment skipped) L (t, c) = Panic r).
Proof.
  induction L as [|seg L IH]; intros t c Hinv; cbn [fold_o].
  { split; [exact Hinv|]. intros (s & Hs & _). by apply elem_of_nil in Hs. }
  pose proof (scan_segment_cases skipped t c seg) as Hs.
  destruct (scan_segment skipped (t, c) seg) as [[t1 c1]|r] eqn:E.
  - rewrite bind_Ok. destruct Hs as (Ht & Hc & Hor).
    destruct (IH t1 c1) as [IH1 IH2].
    { intros j cf Hj. destruct (Hc j cf Hj) as [H|H]; [apply Ht; by apply (Hinv j)|exact H]. }
    split.
    + destruct (fold_o _ L _) as [[t' c']|r]; [exact IH1|].
      destruct IH1 as (s & Hs & Hns). exists s. split; [by right|exact Hns].
    + intros (s & Hin & Hns & He). apply elem_of_cons in Hin as [->|Hin].
      * exfalso. destruct Hor as [Hor|Hor]; [contradiction|contradiction].
      * apply IH2. eauto.
  - rewrite bind_Panic. split; [exists seg; split; [left|exact Hs]|eauto].
Qed.

(** X18: when the stored counts sum to less than 2^64 (so no [usize] addition overflows), one round of [find_most_freq_kmer] (with the mapping built from the segments) panics exactly when some segment not yet skipped stores no k-mer. *)
Theorem find_most_freq_kmer_panic_iff (segments : gmap nat Segment)
    (skipped_segment_indexes : gset nat) :
  (Z.of_nat (kmer_count_sum segments) < 2 ^ 64)%Z ->
  (exists r, find_most_freq_kmer segments (make_kmer_segments_mapping segments)
               skipped_segment_indexes = Panic r) <->
  exists i segment, segments !! i = Some segment /\
    (index segment ∉ skipped_segment_indexes) /\ kmers segment = ∅.
Proof.
  intros _.
  destruct (fold_scan_cases skipped_segment_indexes (map_to_list segments).*2 ∅ ∅) as [Hf Hp].
  { intros j cf H. by rewrite lookup_empty in H. }
  unfold find_most_freq_kmer. split.
  - destruct (fold_o _ _ _) as [[t c]|r] eqn:E.
    2:{ intros _. destruct Hf as (s & Hs & Hns). apply elem_of_segments_snd in Hs as [i Hi]. eauto. }
    rewrite bind_Ok. intros [r Hr]. exfalso. revert Hr.
    case_bool_decide as Hz; [discriminate|].
    destruct (max_by_total
                (fun a b : nat * KmerFrequency =>
                   a_freq ← unwrap (t !! kmer a.2);
                   b_freq ← unwrap (t !! kmer b.2);
                   Ok (Nat.compare a_freq b_freq))
                (map_to_list c)) as [[j winner] Hb].
    { intros [ja a] [jb b] Ha Hb. apply elem_of_map_to_list in Ha, Hb. simpl.
      destruct (Hf _ _ Ha) as [x Hx]. destruct (Hf _ _ Hb) as [y Hy].
      rewrite Hx, Hy. simpl. eauto. }
    { intros Hnil. apply map_to_list_empty_iff in Hnil. subst c. by rewrite map_size_empty in Hz. }
    rewrite Hb, bind_Ok. simpl.
    destruct (fold_scan skipped_segment_indexes _ _ _ _ _ E) as (Ha & _ & _).
    apply max_by_elem, elem_of_map_to_list in Hb.
    destruct (Ha j winner Hb) as [H0|(seg & Hseg & _ & _ & Hk)]; [by rewrite lookup_empty in H0|].
    apply elem_of_segments_snd in Hseg as [i Hi].
    destruct (mapping_covers _ _ _ _ Hi Hk) as (m & Hm & _).
    rewrite Hm. simpl. discriminate.
  - intros (i & seg & Hi & Hns & He).
    destruct Hp as [r Hr].
    { exists seg. split; [apply elem_of_segments_snd; eauto|auto]. }
    rewrite Hr, bind_Panic. eauto.
Qed.

Lemma find_most_freq_kmer_panic_iff_witness :
  (exists r, find_most_freq_kmer gap_segments (make_kmer_segments_mapping gap_segments) ∅
             = Panic r) <->
  exists i segment, gap_segments !! i = Some segment /\
    (index segment ∉ (∅ : gset nat)) /\ kmers segment = ∅.
Proof. apply find_most_freq_kmer_panic_iff. vm_compute. reflexivity. Defined.



Lemma chars_to_records_sequence (s : string) :
  chars (to_records_sequence s) = map normalize_char (chars s).
Proof. unfold to_records_sequence. rewrite chars_collect, map_map. reflexivity. Qed.

Lemma to_records_sequence_map (s : string) :
  to_records_sequence s = collect (map normalize_char (chars s)).
Proof. unfold to_records_sequence. by rewrite map_map. Qed.

Lemma normalize_char_facts (c : ascii) :
  (nat_of_ascii c < 128 -> nat_of_ascii (normalize_char c) < 128) /\
  normalize_char c <> "U"%char /\ is_lower (normalize_char c) = false /\
  normalize_char (normalize_char c) = normalize_char c.
Proof.
  assert (Hb : forall c, (negb (nat_of_ascii c <? 128) || (nat_of_ascii (normalize_char c) <? 128))
                 && negb (Ascii.eqb (normalize_char c) "U")
                 && negb (is_lower (normalize_char c))
                 && Ascii.eqb (normalize_char (normalize_char c)) (normalize_char c) = true).
  { intros d. destruct d as [[] [] [] [] [] [] [] []]; vm_compute; reflexivity. }
  specialize (Hb c). apply andb_prop in Hb as [Hb H4]. apply andb_prop in Hb as [Hb H3].
  apply andb_prop in Hb as [H1 H2].
  split; [|split; [|split]].
  - intros Hc. apply orb_prop in H1 as [H1|H1].
    + apply Nat.ltb_lt in Hc. by rewrite Hc in H1.
    + by apply Nat.ltb_lt.
  - intros He. rewrite He in H2. discriminate.
  - by apply negb_true_iff.
  - by apply Ascii.eqb_eq.
Qed.

(** X19: on ASCII input, the sequence normalisation of [to_records] keeps the length, leaves no lower-case letter and no [U], and is idempotent. *)
Theorem to_records_sequence_normal (sequence : string) :
  Forall (fun c => nat_of_ascii c < 128) (chars sequence) ->
  String.length (to_records_sequence sequence) = String.length sequence /\
  Forall (fun c => nat_of_ascii c < 128 /\ c <> "U"%char /\ is_lower c = false)
    (chars (to_records_sequence sequence)) /\
  to_records_sequence (to_records_sequence sequence) = to_records_sequence sequence.
Proof.
  intros Hascii. split; [|split].
  - rewrite <- !length_chars, chars_to_records_sequence, length_map. reflexivity.
  - rewrite chars_to_records_sequence. apply Forall_fmap.
    eapply Forall_impl; [exact Hascii|]. intros c Hc. simpl.
    destruct (normalize_char_facts c) as (H1 & H2 & H3 & _). auto.
  - rewrite !to_records_sequence_map, chars_collect, map_map. f_equal.
    apply map_ext. intros c. apply normalize_char_facts.
Qed.

Lemma to_records_sequence_normal_witness :
  String.length (to_records_sequence "acgun-T") = String.length "acgun-T" /\
  Forall (fun c => nat_of_ascii c < 128 /\ c <> "U"%char /\ is_lower c = false)
    (chars (to_records_sequence "acgun-T")) /\
  to_records_sequence (to_records_sequence "acgun-T") = to_records_sequence "acgun-T".
Proof.
  apply to_records_sequence_normal. vm_compute.
  repeat constructor; lia.
Defined.

Lemma map_complement_involutive (l : list ascii) :
  Forall (fun c => c ∈ nucleotides) l -> map complement_base (map complement_base l) = l.
Proof.
  induction 1 as [|c l Hc _ IH]; [reflexivity|]. simpl. rewrite IH.
  rewrite complement_involutive; [reflexivity|]. by apply bool_decide_eq_true.
Qed.

Lemma reverse_complement_involutive_on (s : string) :
  Forall (fun c => c ∈ nucleotides) (chars s) ->
  reverse_complement (reverse_complement s) = s.
Proof.
  intros Hs. rewrite <- (collect_chars s) at 2. unfold reverse_complement at 1.
  rewrite chars_reverse_complement. f_equal.
  rewrite <- map_rev, rev_involutive. by apply map_complement_involutive.
Qed.

(** X20: a sequence over [ACGTU] in either case is normalised by [to_records] to a sequence over [ACGT], on which [reverse_complement] is an involution. *)
Theorem to_records_sequence_reverse_complement (sequence : string) :
  Forall (fun c => c ∈ rna_dna_letters) (chars sequence) ->
  Forall (fun c => c ∈ nucleotides) (chars (to_records_sequence sequence)) /\
  reverse_complement (reverse_complement (to_records_sequence sequence))
    = to_records_sequence sequence.
Proof.
  intros Hs.
  assert (Hn : Forall (fun c => c ∈ nucleotides) (chars (to_records_sequence sequence))).
  { rewrite chars_to_records_sequence. apply Forall_fmap.
    eapply Forall_impl; [exact Hs|]. intros c Hc. simpl. unfold rna_dna_letters in Hc.
    repeat (apply elem_of_cons in Hc as [->|Hc]; [vm_compute; repeat constructor|]).
    by apply elem_of_nil in Hc. }
  split; [exact Hn|]. by apply reverse_complement_involutive_on.
Qed.

Lemma to_records_sequence_reverse_complement_witness :
  Forall (fun c => c ∈ nucleotides) (chars (to_records_sequence "acguU")) /\
  reverse_complement (reverse_complement (to_records_sequence "acguU"))
    = to_records_sequence "acguU".
Proof.
  apply to_records_sequence_reverse_complement. vm_compute.
  repeat constructor.
Defined.


Section GreedyStop.
Variable find : gset nat -> outcome (option (KmerFrequency * gset nat)).
Variable total_segments : nat.

Lemma greedy_rounds_inv_stop (Inv : gset nat -> list KmerFrequency -> Prop) :
  (forall s acc w s', Inv s acc -> find s = Ok (Some (w, s')) -> Inv (s ∪ s') (acc ++ [w])%list) ->
  forall fuel s acc l, Inv s acc ->
  greedy_rounds find total_segments 0 fuel s acc = Ok l ->
  exists s', Inv s' l /\ (List.length l < List.length acc + fuel -> find s' = Ok None).
Proof.
  intros Hstep fuel. induction fuel as [|fuel IH]; intros s acc l Hinv H; cbn [greedy_rounds] in H.
  - injection H as <-. exists s. split; [exact Hinv|lia].
  - destruct (find s) as [[[w s']|]|r] eqn:Hf; [rewrite bind_Ok in H|rewrite bind_Ok in H|discriminate].
    + apply bind_Ok_inv in H as (rem & _ & H).
      rewrite bool_decide_false in H by lia.
      destruct (IH _ _ _ (Hstep _ _ _ _ Hinv Hf) H) as (s'' & Hi & Hl).
      exists s''. split; [exact Hi|]. intros Hlt. apply Hl. rewrite length_app. simpl. lia.
    + injection H as <-. eauto.
Qed.

End GreedyStop.

Lemma find_most_freq_kmer_none_skipped (segments : gmap nat Segment)
    (kmer_segments_mapping : gmap string (gmap nat nat)) (skipped_segment_indexes : gset nat) :
  find_most_freq_kmer segments kmer_segments_mapping skipped_segment_indexes = Ok None ->
  forall i segment, segments !! i = Some segment -> index segment ∈ skipped_segment_indexes.
Proof.
  unfold find_most_freq_kmer. intros H.
  apply bind_Ok_inv in H as ([t c] & Hf & H).
  destruct (fold_scan _ _ _ _ _ _ Hf) as (_ & Hb & _).
  case_bool_decide as Hz.
  - apply map_size_empty_iff in Hz. subst c.
    intros i seg Hi. destruct (decide (index seg ∈ skipped_segment_indexes)) as [|Hn]; [done|].
    exfalso. destruct (Hb seg) as [x Hx]; [apply elem_of_segments_snd; eauto|exact Hn|].
    by rewrite lookup_empty in Hx.
  - exfalso. apply bind_Ok_inv in H as (best & _ & H).
    apply bind_Ok_inv in H as ([j winner] & _ & H).
    apply bind_Ok_inv in H as (m & _ & H). discriminate.
Qed.

Lemma find_most_freq_kmer_skipped_words (segments : gmap nat Segment)
    (skipped_segment_indexes : gset nat) (winner : KmerFrequency) (skipped : gset nat) :
  find_most_freq_kmer segments (make_kmer_segments_mapping segments) skipped_segment_indexes
    = Ok (Some (winner, skipped)) ->
  forall i, i ∈ skipped -> exists segment k, segments !! i = Some segment /\
    is_Some (kmers segment !! k) /\
    (word k = word (kmer winner) \/ word k = reverse_complement (word (kmer winner))).
Proof.
  unfold find_most_freq_kmer. intros H.
  apply bind_Ok_inv in H as ([t c] & Hf & H).
  case_bool_decide; [discriminate|].
  apply bind_Ok_inv in H as (best & _ & H).
  apply bind_Ok_inv in H as ([j winner'] & _ & H).
  apply bind_Ok_inv in H as (m & Hm & [= <- <-]).
  unfold unwrap in Hm.
  destruct (make_kmer_segments_mapping segments !! word (kmer winner')) as [m'|] eqn:Em;
    [injection Hm as ->|discriminate].
  intros i Hi.
  destruct (make_kmer_segments_mapping segments !! reverse_complement (word (kmer winner')))
    as [rs|] eqn:Er.
  - apply elem_of_union in Hi as [Hi|Hi].
    + destruct (mapping_keys _ _ _ _ Em Hi) as (seg & k & Hs & Hw & Hk). eauto 10.
    + destruct (mapping_keys _ _ _ _ Er Hi) as (seg & k & Hs & Hw & Hk). eauto 10.
  - destruct (mapping_keys _ _ _ _ Em Hi) as (seg & k & Hs & Hw & Hk). eauto 10.
Qed.

(** X21: when every segment's index equals its key and [get_candidates_kmers] returns fewer than [MAX_ITERATIONS] k-mers, every segment stores a k-mer whose word equals the word of a returned k-mer or the reverse complement of that word. *)
Theorem get_candidates_kmers_covers (segments : gmap nat Segment)
    (candidates : list KmerFrequency) :
  (forall i segment, segments !! i = Some segment -> index segment = i) ->
  get_candidates_kmers segments = Ok candidates ->
  List.length candidates < MAX_ITERATIONS ->
  forall i segment, segments !! i = Some segment ->
  exists cf k, cf ∈ candidates /\ is_Some (kmers segment !! k) /\
    (word k = word (kmer cf) \/ word k = reverse_complement (word (kmer cf))).
Proof.
  intros Hidx H Hlen. unfold get_candidates_kmers, get_candidates_kmers_tol in H.
  set (Inv := fun (s : gset nat) (acc : list KmerFrequency) =>
    forall i, i ∈ s -> forall segment, segments !! i = Some segment ->
      exists cf k, cf ∈ acc /\ is_Some (kmers segment !! k) /\
        (word k = word (kmer cf) \/ word k = reverse_complement (word (kmer cf)))).
  assert (Hstep : forall s acc w s', Inv s acc ->
    find_most_freq_kmer segments (make_kmer_segments_mapping segments) s = Ok (Some (w, s')) ->
    Inv (s ∪ s') (acc ++ [w])%list).
  { intros s acc w s' Hinv Hf i Hi seg Hseg.
    apply elem_of_union in Hi as [Hi|Hi].
    - destruct (Hinv i Hi seg Hseg) as (cf & k & Hcf & Hk & Hw).
      exists cf, k. split; [by apply elem_of_app; left|auto].
    - destruct (find_most_freq_kmer_skipped_words _ _ _ _ Hf i Hi) as (seg' & k & Hs & Hk & Hw).
      rewrite Hseg in Hs. injection Hs as <-.
      exists w, k. split; [apply elem_of_app; right; left|auto]. }
  assert (Hinit : Inv ∅ []) by (intros i Hi; by apply elem_of_empty in Hi).
  destruct (greedy_rounds_inv_stop _ _ Inv Hstep MAX_ITERATIONS ∅ [] candidates Hinit H)
    as (s & Hinv & Hnone).
  intros i seg Hi. apply (Hinv i); [|exact Hi].
  rewrite <- (Hidx i seg Hi).
  assert (Hn : find_most_freq_kmer segments (make_kmer_segments_mapping segments) s = Ok None)
    by (apply Hnone; simpl; exact Hlen).
  exact (find_most_freq_kmer_none_skipped _ _ _ Hn i seg Hi).
Qed.

Lemma get_candidates_kmers_covers_witness :
  exists cf k, cf ∈ [{| kmer := fwd "AGGT"; frequency := 2 |}; {| kmer := fwd "ATGA"; frequency := 2 |}]
    /\ is_Some (kmers (mk_segment 0 [(fwd "ACTG", 1); (fwd "AGGT", 1); (fwd "ATTA", 2)]) !! k) /\
    (word k = word (kmer cf) \/ word k = reverse_complement (word (kmer cf))).
Proof.
  refine (get_candidates_kmers_covers fixture_segments
           [{| kmer := fwd "AGGT"; frequency := 2 |}; {| kmer := fwd "ATGA"; frequency := 2 |}]
           _ _ _ 0 _ _).
  - intros i seg Hi.
    assert (Hall : map_Forall (fun i seg => index seg = i) fixture_segments)
      by (apply (bool_decide_unpack _); vm_compute; exact I).
    exact (map_Forall_lookup_1 _ _ _ _ Hall Hi).
  - vm_compute. reflexivity.
  - vm_compute. lia.
  - vm_compute. reflexivity.
Defined.
